(** * aiocoap, CoAP over TCP: the framing codec and the connection's inbound path

    A shallow embedding of [aiocoap/transports/tcp.py]: the length-prefixed
    framing codec ([_extract_message_size], [_decode_message],
    [_encode_length], [_serialize]), the connection object with its spool, its
    signalling handler and [abort], and the client pool's [_spawn_protocol].

    Python values are modelled as follows.
    - [int] is [Z]; [bytes] is [list byte]; [len] is [Z.of_nat (length _)].
    - a [str] is the [string] of its UTF-8 bytes, so [s.encode('utf8')] is
      [list_byte_of_string s].
    - a raised exception is the [Raise] alternative of [result]; inside the
      connection the exception travels through the monad [M], together with
      the connection's fields and the calls made on the collaborators
      (transport, log, dispatch context). *)

From Stdlib Require Import ZArith List Lia Bool.
From Stdlib Require Import Strings.String Strings.Byte.
From stdpp Require Import base option list gmap strings.

Import ListNotations.
Local Open Scope Z_scope.

(** ** Python integers and bytes *)

Definition byte_val (b : byte) : Z := Z.of_N (Byte.to_N b).

(** [bytes((z,))]: a one-byte object, [ValueError] unless [z] is in
    [range(256)]. *)
Definition mk_byte (z : Z) : option byte :=
  if (0 <=? z) && (z <? 256) then Byte.of_N (Z.to_N z) else None.

(** The byte of a value already known to lie in [range(256)]. *)
Definition byte_of_Z (z : Z) : byte :=
  match Byte.of_N (Z.to_N (z mod 256)) with
  | Some b => b
  | None => x00
  end.

Definition len {A} (l : list A) : Z := Z.of_nat (length l).

(** [data[a:b]] for indices [0 <= a <= b] (the only ones this file's code
    computes). *)
Definition slice {A} (data : list A) (a b : Z) : list A :=
  take (Z.to_nat (b - a)) (drop (Z.to_nat a) data).

(** [data[i]] for [0 <= i]; [None] stands for [IndexError]. *)
Definition index {A} (data : list A) (i : Z) : option A :=
  if i <? 0 then None else data !! Z.to_nat i.

(** The [n] base-256 digits of [x], most significant first. *)
Fixpoint be_digits (n : nat) (x : Z) : list byte :=
  match n with
  | O => []
  | S n' => be_digits n' (x / 256) ++ [byte_of_Z x]
  end.

(** [int.from_bytes(data, 'big')]. *)
Definition from_bytes (data : list byte) : Z :=
  fold_left (fun acc b => acc * 256 + byte_val b) data 0.

Inductive exn :=
| OverflowError | ValueError | TypeError | IndexError | NameError
| NotImplementedError | UnparsableMessage.

Inductive result (A : Type) :=
| Ok (a : A)
| Raise (e : exn).
Arguments Ok {A} a.
Arguments Raise {A} e.

(** [x.to_bytes(n, 'big')]: [OverflowError] for a negative [x] and for one
    that needs more than [n] bytes. *)
Definition to_bytes (x : Z) (n : nat) : result (list byte) :=
  if x <? 0 then Raise OverflowError
  else if 256 ^ Z.of_nat n <=? x then Raise OverflowError
  else Ok (be_digits n x).

(** ** The framing codec *)

(** [_extract_message_size]: [None] is Python's [None]. *)
Definition _extract_message_size (data : list byte) : option (Z * Z * Z) :=
  match data with
  | [] => None
  | b0 :: _ =>
    let l := Z.shiftr (byte_val b0) 4 in
    let tokenoffset := 2 in
    let tkl := Z.land (byte_val b0) 15 in
    if 13 <=? l then
      let '(extlen, offset) :=
        if l =? 13 then (1, 13)
        else if l =? 14 then (2, 269)
        else (4, 65805) in
      if len data <? extlen + 1 then None
      else
        let tokenoffset := 2 + extlen in
        let l := from_bytes (slice data 1 (1 + extlen)) + offset in
        Some (tokenoffset, tkl, l)
    else Some (tokenoffset, tkl, l)
  end.

(** [_encode_length]. *)
Definition _encode_length (l : Z) : result (Z * list byte) :=
  if l <? 13 then Ok (l, [])
  else if l <? 269 then
    match to_bytes (l - 13) 1 with
    | Ok ext => Ok (13, ext)
    | Raise e => Raise e
    end
  else if l <? 65535 then
    match to_bytes (l - 269) 2 with
    | Ok ext => Ok (14, ext)
    | Raise e => Raise e
    end
  else
    match to_bytes (l - 65805) 4 with
    | Ok ext => Ok (15, ext)
    | Raise e => Raise e
    end.

(** An option of a message as [option_list()] yields it: [number] and the
    raw [value]. *)
Record Opt := { number : Z; value : list byte }.

(** [aiocoap.Message], the attributes this transport reads and writes.
    [remote] is left out: the connection sets it to itself and nothing in
    this file reads it back from a received message. *)
Record Message := {
  code : Z;
  token : list byte;
  opt : list Opt;
  payload : list byte
}.

(** What the transport imports from the rest of aiocoap: the signalling
    codes of [aiocoap.numbers.codes], [Code.is_signalling],
    [OptionNumber.is_critical], and the options codec behind [msg.opt].
    [opt_decode] returns the options and the payload left after them;
    [None] is [error.UnparsableMessage]. *)
Class Collaborators := {
  CSM : Z; PING : Z; PONG : Z; RELEASE : Z; ABORT : Z;
  is_signalling : Z -> bool;
  is_critical : Z -> bool;
  opt_encode : list Opt -> list byte;
  opt_decode : list byte -> option (list Opt * list byte)
}.

Section Codec.
Context `{Collaborators}.

(** The options-and-payload region [_serialize] joins: the encoded options,
    then the [0xff] marker and the payload when the payload is not empty. *)
Definition body_of (msg : Message) : list byte :=
  opt_encode (opt msg) ++
  match payload msg with
  | [] => []
  | _ :: _ => xff :: payload msg
  end.

(** [_serialize]. The length is encoded before the token is checked, as in
    the source. *)
Definition _serialize (msg : Message) : result (list byte) :=
  let data := body_of msg in
  match _encode_length (len data) with
  | Raise e => Raise e
  | Ok (l, extlen) =>
    let tkl := len (token msg) in
    if 8 <? tkl then Raise ValueError
    else
      match mk_byte (Z.lor (Z.shiftl l 4) tkl), mk_byte (code msg) with
      | Some b0, Some c => Ok (b0 :: extlen ++ c :: token msg ++ data)
      | _, _ => Raise ValueError
      end
  end.

(** [_decode_message]. Unpacking a [None] size is a [TypeError], reading
    the code byte past the end an [IndexError]. *)
Definition _decode_message (data : list byte) : result Message :=
  match _extract_message_size data with
  | None => Raise TypeError
  | Some (tokenoffset, tkl, _) =>
    if 8 <? tkl then Raise UnparsableMessage
    else
      match index data (tokenoffset - 1) with
      | None => Raise IndexError
      | Some c =>
        let token := slice data tokenoffset (tokenoffset + tkl) in
        match opt_decode (drop (Z.to_nat (tokenoffset + tkl)) data) with
        | None => Raise UnparsableMessage
        | Some (opts, pl) =>
          Ok {| code := byte_val c; token := token; opt := opts; payload := pl |}
        end
      end
  end.

End Codec.

(** ** The connection *)

(** A value of the [_remote_settings] dict: the integer stored under
    ['max-message-size'], or the [True] stored under
    ['block-wise-transfer']. *)
Inductive setting :=
| SInt (z : Z)
| STrue.

(** The fields of [TcpConnection] that [data_received] reads and writes.
    [_remote_settings] is [None] until a CSM has been processed. The
    transport (the one [connection_made] has stored), the log and the
    context are collaborators: calls on them are recorded, see [call]. *)
Record TcpConnection := {
  _spool : list byte;
  _my_max_message_size : Z;
  _remote_settings : option (gmap string setting)
}.

(** [TcpConnection.__init__]. *)
Definition init : TcpConnection :=
  {| _spool := []; _my_max_message_size := 1024 * 1024; _remote_settings := None |}.

(** The calls a connection makes on its collaborators, in order:
    [self._transport.write(data)], [self._transport.close()],
    [self.log.warning(text)] and [self._ctx._dispatch_incoming(self, msg)]. *)
Inductive call :=
| TransportWrite (data : list byte)
| TransportClose
| LogWarning (text : string)
| DispatchIncoming (msg : Message).

(** A method of the connection: from the fields before the call to the
    fields after it, the calls made, and the value returned or the exception
    raised. Fields assigned and calls made before an exception stay. *)
Definition M (A : Type) : Type :=
  TcpConnection -> TcpConnection * list call * result A.

Definition ret {A} (a : A) : M A := fun c => (c, [], Ok a).

Definition raise {A} (e : exn) : M A := fun c => (c, [], Raise e).

Definition bind {A B} (m : M A) (f : A -> M B) : M B :=
  fun c =>
    match m c with
    | (c1, calls1, Ok a) =>
      let '(c2, calls2, r) := f a c1 in (c2, calls1 ++ calls2, r)
    | (c1, calls1, Raise e) => (c1, calls1, Raise e)
    end.

Definition emit (x : call) : M unit := fun c => (c, [x], Ok tt).

Definition get : M TcpConnection := fun c => (c, [], Ok c).

Declare Scope conn_scope.
Delimit Scope conn_scope with conn.
Notation "x <- m ;; k" := (bind m (fun x => k))
  (at level 100, m at level 99, k at level 200, right associativity)
  : conn_scope.
Notation "m ;; k" := (bind m (fun _ => k))
  (at level 100, k at level 200, right associativity) : conn_scope.

(** The connection [c] with [s] for a spool. *)
Definition with_spool (s : list byte) (c : TcpConnection) : TcpConnection :=
  {| _spool := s;
     _my_max_message_size := _my_max_message_size c;
     _remote_settings := _remote_settings c |}.

(** [self._spool = s]. *)
Definition set_spool (s : list byte) : M unit :=
  fun c => (with_spool s c, [], Ok tt).

(** [self._remote_settings = {}]. *)
Definition reset_remote_settings : M unit :=
  fun c => ({| _spool := _spool c;
               _my_max_message_size := _my_max_message_size c;
               _remote_settings := Some ∅ |}, [], Ok tt).

(** [self._remote_settings[key] = v]; item assignment on [None] is a
    [TypeError]. *)
Definition set_remote_setting (key : string) (v : setting) : M unit :=
  fun c =>
    match _remote_settings c with
    | None => (c, [], Raise TypeError)
    | Some d =>
      ({| _spool := _spool c;
          _my_max_message_size := _my_max_message_size c;
          _remote_settings := Some (<[key := v]> d) |}, [], Ok tt)
    end.

(** The connection [c] once the bytes [b] have been added to its spool. *)
Definition extend (b : list byte) (c : TcpConnection) : TcpConnection :=
  with_spool (_spool c ++ b) c.

Definition settings_known (c : TcpConnection) : Prop :=
  is_Some (_remote_settings c).

(** A method that neither reads nor writes the spool. *)
Definition spool_blind {A} (m : M A) : Prop :=
  forall s c,
    m (with_spool s c) = let '(c1, calls, r) := m c in (with_spool s c1, calls, r).

(** A method under which a property of the connection, once true, stays
    true. *)
Definition preserves {A} (P : TcpConnection -> Prop) (m : M A) : Prop :=
  forall c c1 calls r, m c = (c1, calls, r) -> P c -> P c1.

(** How one pass through the body of [data_received]'s [while True] ends. *)
Inductive control :=
| Break
| Continue
| Return.

Section Connection.
Context `{Collaborators}.
Local Open Scope conn_scope.

(** [Message(code=c, token=t)]: no option, empty payload. *)
Definition new_message (c : Z) (t : list byte) : Message :=
  {| code := c; token := t; opt := []; payload := [] |}.

(** [_send_message]. *)
Definition _send_message (msg : Message) : M unit :=
  match _serialize msg with
  | Ok data => emit (TransportWrite data)
  | Raise e => raise e
  end.

(** The message [abort] has built when it reaches [_send_message]. *)
Definition abort_msg (errormessage : option string) : Message :=
  match errormessage with
  | Some s =>
    {| code := ABORT; token := []; opt := []; payload := list_byte_of_string s |}
  | None => new_message ABORT []
  end.

(** [abort]. With a [bad_csm_option] the source evaluates
    [abort_msg.opt.add_option(block_length)]; [block_length] is bound
    neither in [abort] nor in the module, so that line raises [NameError]. *)
Definition abort (errormessage : option string) (bad_csm_option : option Z)
  : M unit :=
  match bad_csm_option with
  | Some _ => raise NameError
  | None => ret tt
  end ;;
  _send_message (abort_msg errormessage) ;;
  emit TransportClose.

(** The [for opt in msg.opt.option_list()] of the CSM branch. *)
Fixpoint csm_options (opts : list Opt) : M unit :=
  match opts with
  | [] => ret tt
  | o :: rest =>
    (if number o =? 2 then
       set_remote_setting "max-message-size" (SInt (from_bytes (value o)))
     else if number o =? 4 then
       set_remote_setting "block-wise-transfer" STrue
     else if is_critical (number o) then
       abort None (Some (number o))
     else ret tt) ;;
    csm_options rest
  end.

(** The [for opt in msg.opt.option_list()] of the other signalling codes. *)
Fixpoint other_options (opts : list Opt) : M unit :=
  match opts with
  | [] => ret tt
  | o :: rest =>
    (if is_critical (number o) then abort None (Some (number o)) else ret tt) ;;
    other_options rest
  end.

(** The [if self._remote_settings is None: self._remote_settings = {}] that
    opens the CSM branch. *)
Definition ensure_settings : M unit :=
  c <- get ;;
  match _remote_settings c with
  | None => reset_remote_settings
  | Some _ => ret tt
  end.

(** [_process_signaling]. *)
Definition _process_signaling (msg : Message) : M unit :=
  if code msg =? CSM then
    ensure_settings ;;
    csm_options (opt msg)
  else if (code msg =? PING) || (code msg =? PONG)
          || (code msg =? RELEASE) || (code msg =? ABORT) then
    other_options (opt msg) ;;
    if code msg =? PING then _send_message (new_message PONG (token msg))
    else if code msg =? PONG then ret tt
    else if code msg =? RELEASE then raise NotImplementedError
    else if code msg =? ABORT then raise NotImplementedError
    else ret tt
  else abort (Some "Unknown signalling code"%string) None.

(** What the body does with a message once its frame is off the spool. *)
Definition after_frame (msg : Message) : M control :=
  if is_signalling (code msg) then
    _process_signaling msg ;; ret Continue
  else
    c' <- get ;;
    match _remote_settings c' with
    | None => abort (Some "No CSM received"%string) None ;; ret Return
    | Some _ => emit (DispatchIncoming msg) ;; ret Continue
    end.

(** One pass through the body of the [while True] of [data_received]. *)
Definition data_received_body : M control :=
  c <- get ;;
  match _extract_message_size (_spool c) with
  | None => ret Break
  | Some (tokenoffset, tkl, l) =>
    let msglen := tokenoffset + tkl + l in
    if _my_max_message_size c <? msglen then
      abort None None ;; ret Return
    else if len (_spool c) <? msglen then ret Break
    else
      match _decode_message (take (Z.to_nat msglen) (_spool c)) with
      | Raise UnparsableMessage =>
        emit (LogWarning "Received unparsable stream, aborting") ;;
        abort (Some "Failed to parse message"%string) None ;;
        ret Return
      | Raise e => raise e
      | Ok msg =>
        set_spool (drop (Z.to_nat msglen) (_spool c)) ;;
        if is_signalling (code msg) then
          _process_signaling msg ;; ret Continue
        else
          c' <- get ;;
          match _remote_settings c' with
          | None => abort (Some "No CSM received"%string) None ;; ret Return
          | Some _ => emit (DispatchIncoming msg) ;; ret Continue
          end
      end
  end.

(** The spool of [c] starts with a complete frame within the size limit
    that decodes to [msg]; [rest] is what follows the frame. *)
Definition head_frame (c : TcpConnection) (msg : Message) (rest : list byte) : Prop :=
  exists off tkl l,
    _extract_message_size (_spool c) = Some (off, tkl, l) /\
    off + tkl + l <= _my_max_message_size c /\
    off + tkl + l <= len (_spool c) /\
    _decode_message (take (Z.to_nat (off + tkl + l)) (_spool c)) = Ok msg /\
    rest = drop (Z.to_nat (off + tkl + l)) (_spool c).

(** The [while True]: [fuel] bounds the number of passes. The result says
    how the loop was left; [Continue] is the answer of a loop cut short by
    the bound, which [data_received]'s bound never produces (see
    [data_received_loop_total]). *)
Fixpoint data_received_loop (fuel : nat) : M control :=
  match fuel with
  | O => ret Continue
  | S fuel' =>
    ctl <- data_received_body ;;
    match ctl with
    | Continue => data_received_loop fuel'
    | _ => ret ctl
    end
  end.

(** [data_received]: every pass that continues has removed a frame of at
    least two bytes from the spool, so one pass more than the spool has
    bytes is enough. *)
Definition data_received (data : list byte) : M unit :=
  c <- get ;;
  set_spool (_spool c ++ data) ;;
  c1 <- get ;;
  data_received_loop (S (length (_spool c1))) ;;
  ret tt.

(** The loop of [data_received d], with the way it was left. *)
Definition run (d : list byte) (c : TcpConnection)
  : TcpConnection * list call * result control :=
  data_received_loop (S (length (_spool c ++ d))) (extend d c).

Definition forget (r : result control) : result unit :=
  match r with
  | Ok _ => Ok tt
  | Raise e => Raise e
  end.

(** The call that closes the transport. *)
Definition closes (x : call) : bool :=
  match x with
  | TransportClose => true
  | _ => false
  end.

(** Delivery of [chunks] to [data_received], one call per chunk. An
    exception ends the delivery. With [stop_at_close] the delivery also ends
    after a call during which the transport was closed (a transport that
    reads no more once closed); without it every chunk is handed over (a
    synthetic feed). *)
Fixpoint deliver (stop_at_close : bool) (chunks : list (list byte)) : M unit :=
  fun c =>
    match chunks with
    | [] => (c, [], Ok tt)
    | d :: rest =>
      match data_received d c with
      | (c1, calls1, Ok _) =>
        if stop_at_close && existsb closes calls1 then (c1, calls1, Ok tt)
        else
          let '(c2, calls2, r) := deliver stop_at_close rest c1 in
          (c2, calls1 ++ calls2, r)
      | (c1, calls1, Raise e) => (c1, calls1, Raise e)
      end
    end.

(** The messages handed to [_dispatch_incoming], in order. *)
Definition dispatched (calls : list call) : list Message :=
  omap (fun x => match x with DispatchIncoming m => Some m | _ => None end) calls.

End Connection.

(** ** A concrete set of collaborators *)

(** The CoAP option format: each option is a byte holding the delta to the
    previous option number (high nibble) and the length of the value (low
    nibble), the extended forms of the two, and the value; [0xff] ends the
    options and starts the payload. *)

(** The extended form of an option delta or length: the nibble and the
    bytes that follow it. *)
Definition ext_field (n : Z) : Z * list byte :=
  if n <? 13 then (n, [])
  else if n <? 269 then (13, be_digits 1 (n - 13))
  else (14, be_digits 2 (n - 269)).

(** The options in [opts], in the order of their numbers, after an option
    numbered [prev]. *)
Fixpoint encode_options (prev : Z) (opts : list Opt) : list byte :=
  match opts with
  | [] => []
  | o :: rest =>
    let '(dn, dext) := ext_field (number o - prev) in
    let '(ln, lext) := ext_field (len (value o)) in
    byte_of_Z (Z.lor (Z.shiftl dn 4) ln)
      :: dext ++ lext ++ value o ++ encode_options (number o) rest
  end.

(** The value of a delta or length nibble [n] and what is left of [data]
    behind its extended form; nibble 15 is no option. *)
Definition read_ext (n : Z) (data : list byte) : option (Z * list byte) :=
  if n <? 13 then Some (n, data)
  else if n =? 13 then
    match data with
    | b :: r => Some (byte_val b + 13, r)
    | [] => None
    end
  else if n =? 14 then
    match data with
    | b1 :: b2 :: r => Some (from_bytes [b1; b2] + 269, r)
    | _ => None
    end
  else None.

(** The options at the start of [data] and the payload behind them; every
    option takes at least one byte, so [length data] is fuel enough. *)
Fixpoint decode_options (fuel : nat) (prev : Z) (data : list byte)
  : option (list Opt * list byte) :=
  match data with
  | [] => Some ([], [])
  | b :: rest =>
    if byte_val b =? 255 then Some ([], rest)
    else
      match fuel with
      | O => None
      | S fuel' =>
        match read_ext (Z.shiftr (byte_val b) 4) rest with
        | None => None
        | Some (delta, r1) =>
          match read_ext (Z.land (byte_val b) 15) r1 with
          | None => None
          | Some (n, r2) =>
            if len r2 <? n then None
            else
              match decode_options fuel' (prev + delta) (drop (Z.to_nat n) r2) with
              | None => None
              | Some (opts, pl) =>
                Some ({| number := prev + delta; value := take (Z.to_nat n) r2 |}
                        :: opts, pl)
              end
          end
        end
      end
  end.

(** Modelled from the spec: [aiocoap.numbers.codes], [OptionNumber] and the
    options codec of [aiocoap.Message] are not part of the transport's
    source. The spec (section 6) names five signalling codes apart from the
    request and response ranges, and calls an option critical by its number;
    the values here are the ones of CoAP over TCP: codes 7.01 to 7.05, the
    signalling class 7.xx (224 and above), odd option numbers critical, and
    the delta-encoded option format with its [0xff] payload marker. The
    theorems below hold for every [Collaborators]; this instance is the one
    the examples run on. *)
Definition coap_tcp : Collaborators := {|
  CSM := 225; PING := 226; PONG := 227; RELEASE := 228; ABORT := 229;
  is_signalling c := 224 <=? c;
  is_critical n := Z.land n 1 =? 1;
  opt_encode := encode_options 0;
  opt_decode data := decode_options (length data) 0 data
|}.

(** A GET without token, option or payload; an empty CSM; a signalling
    message with the unassigned code 7.06; a ping with token [2a]. *)
Definition get_msg : Message := new_message 1 [].
Definition csm_msg : Message := new_message 225 [].
Definition unknown_msg : Message := new_message 230 [].
Definition ping_msg : Message := new_message 226 [x2a].

(** The connection right after [__init__], once a CSM has been processed. *)
Definition csm_seen : TcpConnection :=
  {| _spool := []; _my_max_message_size := 1024 * 1024;
     _remote_settings := Some ∅ |}.

(** ** The client pool *)

(** The attributes of an outgoing message that [_spawn_protocol] reads:
    [message.unresolved_remote], [message.opt.uri_host] and
    [message.opt.uri_port]. *)
Record Outgoing := {
  unresolved_remote : option string;
  uri_host : option string;
  uri_port : option Z
}.

Section ClientPool.
(** The protocol objects [loop.create_connection] hands back. *)
Context {Protocol : Type}.
(** [aiocoap.COAP_PORT]. *)
Variable COAP_PORT : Z.
(** [urllib.parse.SplitResult(None, netloc, None, None, None)]: its
    [hostname], and its [port], which raises [ValueError] on a port that is
    no number. *)
Variable hostname : string -> option string.
Variable port : string -> result (option Z).
(** The outcome of awaiting [loop.create_connection(factory, host, port)]. *)
Variable create_connection : option string -> Z -> result Protocol.

(** [a or b] on an optional integer. *)
Definition or_default (a : option Z) (b : Z) : Z :=
  match a with
  | Some p => if p =? 0 then b else p
  | None => b
  end.

(** [TCPClient._spawn_protocol]: from [self._pool] to the pool afterwards,
    the [(host, port)] pairs [create_connection] was awaited for, and the
    protocol returned or the exception raised. *)
Definition _spawn_protocol (pool : gmap (option string * Z) Protocol)
  (message : Outgoing)
  : gmap (option string * Z) Protocol * list (option string * Z) * result Protocol :=
  let target :=
    match unresolved_remote message with
    | None =>
      let host := uri_host message in
      let port := or_default (uri_port message) COAP_PORT in
      match host with
      | None => Raise ValueError
      | Some _ => Ok (host, port)
      end
    | Some netloc =>
      match port netloc with
      | Raise e => Raise e
      | Ok p => Ok (hostname netloc, or_default p COAP_PORT)
      end
    end in
  match target with
  | Raise e => (pool, [], Raise e)
  | Ok key =>
    match pool !! key with
    | Some protocol => (pool, [], Ok protocol)
    | None =>
      match create_connection key.1 key.2 with
      | Raise e => (pool, [key], Raise e)
      | Ok protocol => (<[key := protocol]> pool, [key], Ok protocol)
      end
    end
  end.

End ClientPool.

(** ** More of the connection *)

(** What one option of a CSM does to the remote settings when it does not
    make the connection abort: option 2 stores the integer read from its
    value, option 4 stores [True], any other option nothing. *)
Definition csm_setting (d : gmap string setting) (o : Opt) : gmap string setting :=
  if number o =? 2 then <["max-message-size" := SInt (from_bytes (value o))]> d
  else if number o =? 4 then <["block-wise-transfer" := STrue]> d
  else d.

(** An option a CSM can carry without an abort: one of the two known ones,
    or an elective one. *)
Definition csm_option_ok `{Collaborators} (o : Opt) : Prop :=
  number o = 2 \/ number o = 4 \/ is_critical (number o) = false.

(** The remote settings are known and hold a value under [key]. *)
Definition has_setting (key : string) (c : TcpConnection) : Prop :=
  match _remote_settings c with
  | Some s => is_Some (s !! key)
  | None => False
  end.

(** A method all of whose calls on the collaborators satisfy [Q]. *)
Definition calls_all {A} (Q : call -> Prop) (m : M A) : Prop :=
  forall c c1 calls r, m c = (c1, calls, r) -> Forall Q calls.

Definition not_dispatch (x : call) : Prop :=
  match x with
  | DispatchIncoming _ => False
  | _ => True
  end.

(** What holds of every message handed to [_dispatch_incoming]. *)
Definition dispatch_ok `{Collaborators} (x : call) : Prop :=
  match x with
  | DispatchIncoming m =>
    is_signalling (code m) = false /\ len (token m) <= 8 /\ 0 <= code m < 256
  | _ => True
  end.

Section Handshake.
Context `{Collaborators}.
(** The raw value of [optiontypes.UintOption(number, v)]. *)
Variable uint_value : Z -> list byte.
Local Open Scope conn_scope.

(** The message [_send_initial_csm] builds. *)
Definition my_csm (c : TcpConnection) : Message :=
  {| code := CSM; token := [];
     opt := [ {| number := 2; value := uint_value (_my_max_message_size c) |};
              {| number := 4; value := uint_value 0 |} ];
     payload := [] |}.

(** [_send_initial_csm]. *)
Definition _send_initial_csm : M unit :=
  c <- get ;;
  _send_message (my_csm c).

(** [connection_made], once the transport is stored. *)
Definition connection_made : M unit := _send_initial_csm.

End Handshake.

(** The shortest big-endian form of a non-negative integer; the value the
    runs below use for [UintOption]. *)
Definition uint_bytes (v : Z) : list byte :=
  if v <? 1 then []
  else if v <? 256 then be_digits 1 v
  else if v <? 65536 then be_digits 2 v
  else if v <? 16777216 then be_digits 3 v
  else be_digits 4 v.

(** ** The pools and the dispatch bridge *)

(** The exception handed to [connection_lost]: an [OSError] with its
    [errno] attribute (which may be [None]), or anything else, [None]
    included. *)
Inductive lost_exc :=
| OSError (errno : option Z)
| OtherExc.

Section Pools.
(** Connections, compared by identity. *)
Context {Protocol : Type} `{Countable Protocol}.

(** The calls of [_dispatch_error] on the log and the token manager:
    [self.log.info(...)] and
    [self._tokenmanager.dispatch_error(errno, connection)]. *)
Inductive bridge_call :=
| LogInfo
| DispatchError (errno : option Z) (connection : Protocol).

(** The part of [_dispatch_error] after the eviction. *)
Definition report_error (connection : Protocol) (exc : lost_exc) : list bridge_call :=
  match exc with
  | OSError errno => [DispatchError errno connection]
  | OtherExc => [LogInfo; DispatchError (Some 0) connection]
  end.

(** [TCPClient._evict_from_pool]: the keys filed under the connection are
    collected, then popped one by one. *)
Definition client_evict_keys (pool : gmap (option string * Z) Protocol)
  (connection : Protocol) : list (option string * Z) :=
  omap (fun kp => if decide (kp.2 = connection) then Some kp.1 else None)
       (map_to_list pool).

Definition client_evict_from_pool (pool : gmap (option string * Z) Protocol)
  (connection : Protocol) : gmap (option string * Z) Protocol :=
  foldr delete pool (client_evict_keys pool connection).

(** [_dispatch_error] on a [TCPClient]. *)
Definition client_dispatch_error (pool : gmap (option string * Z) Protocol)
  (connection : Protocol) (exc : lost_exc)
  : gmap (option string * Z) Protocol * list bridge_call :=
  (client_evict_from_pool pool connection, report_error connection exc).

(** [TCPServer._evict_from_pool]: [set.remove], a [KeyError] ([None] here)
    when the connection is not in the set. *)
Definition server_evict_from_pool (pool : gset Protocol) (connection : Protocol)
  : option (gset Protocol) :=
  if decide (connection ∈ pool) then Some (pool ∖ {[connection]}) else None.

(** [_dispatch_error] on a [TCPServer]: the pool afterwards, the calls
    made, and whether the call returned ([false]: the [KeyError] of the
    eviction went through). *)
Definition server_dispatch_error (pool : gset Protocol) (connection : Protocol)
  (exc : lost_exc) : gset Protocol * list bridge_call * bool :=
  match server_evict_from_pool pool connection with
  | Some pool' => (pool', report_error connection exc, true)
  | None => (pool, [], false)
  end.

End Pools.

(** * Properties *)

(** Decides a comparison of integers: goals [b = (x <? y)] and the like. *)
Ltac cmp :=
  first
    [ lia
    | symmetry;
      first [ apply Z.ltb_lt | apply Z.ltb_ge | apply Z.leb_le | apply Z.leb_gt
            | apply Z.eqb_eq | apply Z.eqb_neq ];
      lia ].

(** ** Bytes and integers *)

Lemma byte_val_range (b : byte) : 0 <= byte_val b < 256.
Proof.
  unfold byte_val. pose proof (Byte.to_N_bounded b). lia.
Qed.

Lemma mk_byte_val (z : Z) (b : byte) : mk_byte z = Some b -> byte_val b = z.
Proof.
  unfold mk_byte, byte_val.
  destruct (0 <=? z) eqn:Hlo; [|discriminate].
  destruct (z <? 256); [|discriminate]. simpl.
  intros Hb. apply Byte.to_of_N in Hb. lia.
Qed.

Lemma mk_byte_is_Some (z : Z) : 0 <= z < 256 -> is_Some (mk_byte z).
Proof.
  intros Hz. unfold mk_byte.
  replace (0 <=? z) with true by lia. replace (z <? 256) with true by lia.
  simpl. destruct (Byte.of_N (Z.to_N z)) eqn:Hb; [eauto|].
  apply Byte.of_N_None_iff in Hb. lia.
Qed.

Lemma byte_val_byte_of_Z (z : Z) : byte_val (byte_of_Z z) = z mod 256.
Proof.
  unfold byte_of_Z, byte_val.
  pose proof (Z.mod_pos_bound z 256 ltac:(lia)) as Hm.
  destruct (Byte.of_N (Z.to_N (z mod 256))) eqn:Hb.
  - apply Byte.to_of_N in Hb. lia.
  - apply Byte.of_N_None_iff in Hb. lia.
Qed.

Lemma len_app {A} (l k : list A) : len (l ++ k) = len l + len k.
Proof. unfold len. rewrite length_app. lia. Qed.

Lemma len_nonneg {A} (l : list A) : 0 <= len l.
Proof. unfold len. lia. Qed.

Lemma slice_app_l {A} (data more : list A) (a b : Z) :
  0 <= a -> b <= len data -> slice (data ++ more) a b = slice data a b.
Proof.
  unfold slice, len. intros Ha Hb.
  rewrite drop_app, take_app_le; [done|].
  rewrite length_drop. lia.
Qed.

Lemma len_slice_le {A} (data : list A) (a b : Z) : len (slice data a b) <= Z.max 0 (b - a).
Proof. unfold len, slice. rewrite length_take. lia. Qed.

Lemma from_bytes_snoc (data : list byte) (b : byte) :
  from_bytes (data ++ [b]) = from_bytes data * 256 + byte_val b.
Proof. unfold from_bytes. by rewrite fold_left_app. Qed.

Lemma length_be_digits (n : nat) (x : Z) : length (be_digits n x) = n.
Proof.
  revert x. induction n as [|n IH]; intros x; simpl; [done|].
  rewrite length_app, IH. simpl. lia.
Qed.

(** Reading back the big-endian digits of a number that fits. *)
Lemma from_bytes_be_digits (n : nat) (x : Z) :
  0 <= x < 256 ^ Z.of_nat n -> from_bytes (be_digits n x) = x.
Proof.
  revert x. induction n as [|n IH]; intros x Hx.
  - simpl in *. unfold from_bytes. simpl. lia.
  - cbn [be_digits]. rewrite from_bytes_snoc, byte_val_byte_of_Z.
    rewrite Nat2Z.inj_succ, Z.pow_succ_r in Hx by lia.
    rewrite IH.
    + pose proof (Z.div_mod x 256 ltac:(lia)). lia.
    + split; [apply Z.div_pos; lia|].
      apply Z.div_lt_upper_bound; lia.
Qed.

Lemma to_bytes_Ok (x : Z) (n : nat) :
  0 <= x < 256 ^ Z.of_nat n -> to_bytes x n = Ok (be_digits n x).
Proof.
  intros Hx. unfold to_bytes.
  replace (x <? 0) with false by lia.
  replace (256 ^ Z.of_nat n <=? x) with false by lia. done.
Qed.

Lemma to_bytes_negative (x : Z) (n : nat) :
  x < 0 -> to_bytes x n = Raise OverflowError.
Proof. intros Hx. unfold to_bytes. by replace (x <? 0) with true by lia. Qed.

(** The first byte of a frame: length nibble above, token length below. *)
Lemma header_byte_value (l t : Z) :
  0 <= l < 16 -> 0 <= t < 16 -> Z.lor (Z.shiftl l 4) t = 16 * l + t.
Proof.
  intros Hl Ht.
  assert (Hhi : Z.shiftr (Z.lor (Z.shiftl l 4) t) 4 = l).
  { rewrite Z.shiftr_lor, Z.shiftr_shiftl_l by lia.
    rewrite (Z.shiftr_div_pow2 t) by lia.
    rewrite Z.div_small by lia. simpl. apply Z.lor_0_r. }
  assert (Hlo : Z.land (Z.lor (Z.shiftl l 4) t) 15 = t).
  { rewrite Z.land_lor_distr_l.
    change 15 with (Z.ones 4). rewrite !Z.land_ones by lia.
    rewrite Z.shiftl_mul_pow2 by lia.
    rewrite Z.mod_mul by lia. rewrite Z.mod_small by lia. done. }
  assert (Hnn : 0 <= Z.lor (Z.shiftl l 4) t).
  { apply Z.lor_nonneg. split; [apply Z.shiftl_nonneg|]; lia. }
  revert Hhi Hlo Hnn. generalize (Z.lor (Z.shiftl l 4) t). intros x Hhi Hlo Hnn.
  rewrite Z.shiftr_div_pow2 in Hhi by lia.
  change 15 with (Z.ones 4) in Hlo. rewrite Z.land_ones in Hlo by lia.
  pose proof (Z.div_mod x (2 ^ 4) ltac:(lia)). lia.
Qed.

Lemma header_byte_split (l t : Z) :
  0 <= l < 16 -> 0 <= t < 16 ->
  Z.shiftr (16 * l + t) 4 = l /\ Z.land (16 * l + t) 15 = t.
Proof.
  intros Hl Ht. split.
  - rewrite Z.shiftr_div_pow2 by lia. symmetry.
    apply (Z.div_unique _ _ _ t); lia.
  - change 15 with (Z.ones 4). rewrite Z.land_ones by lia. symmetry.
    apply (Z.mod_unique _ _ l); lia.
Qed.

(** ** The framing codec *)

(** The shape of a size that [_extract_message_size] returns: the token
    offset is 2, 3, 4 or 6, the token length a nibble, the length not
    negative. *)
Lemma extract_message_size_bounds (data : list byte) (off tkl l : Z) :
  _extract_message_size data = Some (off, tkl, l) ->
  2 <= off <= 6 /\ off <= len data + 1 /\ 0 <= tkl < 16 /\ 0 <= l.
Proof.
  destruct data as [|b0 rest]; [discriminate|].
  unfold _extract_message_size.
  pose proof (byte_val_range b0) as Hb.
  assert (Hl : 0 <= Z.shiftr (byte_val b0) 4 < 16).
  { rewrite Z.shiftr_div_pow2 by lia. split; [apply Z.div_pos; lia|].
    apply Z.div_lt_upper_bound; lia. }
  assert (Ht : 0 <= Z.land (byte_val b0) 15 < 16).
  { change 15 with (Z.ones 4). rewrite Z.land_ones by lia.
    apply Z.mod_pos_bound. lia. }
  assert (Hfb : forall d, 0 <= from_bytes d).
  { intros d. induction d as [|x d IH] using rev_ind.
    - unfold from_bytes. simpl. lia.
    - rewrite from_bytes_snoc. pose proof (byte_val_range x). lia. }
  assert (Hlen : len (b0 :: rest) = 1 + len rest) by (unfold len; simpl; lia).
  pose proof (len_nonneg rest).
  destruct (13 <=? _) eqn:H13.
  - destruct (_ =? 13); [|destruct (_ =? 14)];
      (destruct (len (b0 :: rest) <? _) eqn:Hshort; [discriminate|]);
      intros [= <- <- <-];
      match goal with |- context [from_bytes ?d] => pose proof (Hfb d) end; lia.
  - intros [= <- <- <-]. lia.
Qed.

(** The size read from a buffer is read again from any longer buffer. *)
Lemma extract_message_size_app (b c : list byte) (r : Z * Z * Z) :
  _extract_message_size b = Some r ->
  _extract_message_size (b ++ c) = Some r.
Proof.
  destruct b as [|b0 rest]; [discriminate|].
  rewrite <- app_comm_cons. unfold _extract_message_size.
  destruct (13 <=? _); [|done].
  assert (Hlen : len (b0 :: rest ++ c) = len (b0 :: rest) + len c).
  { rewrite app_comm_cons. apply len_app. }
  pose proof (len_nonneg c) as Hc.
  destruct (_ =? 13); [|destruct (_ =? 14)];
    (destruct (len (b0 :: rest) <? _) eqn:Hshort; [discriminate|]);
    (replace (len (b0 :: rest ++ c) <? _) with false by lia);
    rewrite (app_comm_cons rest c b0), slice_app_l by lia; done.
Qed.

(** C10. Prefix stability of the frame-length measurement: once
    [_extract_message_size] returns a triple for a buffer, it returns the
    same triple for every extension of that buffer, so measuring the spool
    again after more bytes have arrived never moves a frame boundary. *)
Theorem extract_message_size_prefix_stable (b c : list byte) (off tkl l : Z) :
  _extract_message_size b = Some (off, tkl, l) ->
  _extract_message_size (b ++ c) = Some (off, tkl, l).
Proof. apply extract_message_size_app. Qed.

(** C10 on the header [d0 03] (length 3 + 13), before and after the code
    byte and the payload marker have arrived. *)
Lemma extract_message_size_prefix_stable_witness :
  _extract_message_size [xd0; x03] = Some (3, 0, 16) /\
  _extract_message_size ([xd0; x03] ++ [xe5; xff]) = Some (3, 0, 16).
Proof.
  split; [reflexivity|].
  apply (extract_message_size_prefix_stable [xd0; x03]). reflexivity.
Defined.

(** The size read from a header whose first byte carries the nibble [nib]
    and the token length [tkl], followed by the extension bytes [ext]. *)
Lemma extract_message_size_header (nib tkl : Z) (b0 : byte) (ext rest : list byte) :
  0 <= nib < 16 -> 0 <= tkl < 16 ->
  mk_byte (Z.lor (Z.shiftl nib 4) tkl) = Some b0 ->
  len ext = (if nib =? 13 then 1 else if nib =? 14 then 2
             else if nib =? 15 then 4 else 0) ->
  _extract_message_size (b0 :: ext ++ rest) =
  Some (2 + len ext, tkl,
        if nib =? 13 then from_bytes ext + 13
        else if nib =? 14 then from_bytes ext + 269
        else if nib =? 15 then from_bytes ext + 65805
        else nib).
Proof.
  intros Hnib Htkl Hb0 Hext.
  apply mk_byte_val in Hb0. rewrite header_byte_value in Hb0 by lia.
  destruct (header_byte_split nib tkl Hnib Htkl) as [Hhi Hlo].
  unfold _extract_message_size. rewrite Hb0, Hhi, Hlo.
  assert (Hlen : len (b0 :: ext ++ rest) = 1 + len ext + len rest).
  { unfold len. simpl. rewrite length_app. lia. }
  pose proof (len_nonneg rest) as Hrest.
  assert (Hslice : forall k, k = len ext -> slice (b0 :: ext ++ rest) 1 (1 + k) = ext).
  { intros k ->. unfold slice, len. simpl. rewrite drop_0.
    apply take_app_length'. lia. }
  destruct (nib =? 13) eqn:E13; [|destruct (nib =? 14) eqn:E14;
    [|destruct (nib =? 15) eqn:E15]].
  - replace (13 <=? nib) with true by lia.
    replace (len (b0 :: ext ++ rest) <? 1 + 1) with false by lia.
    rewrite Hslice by lia.
    do 3 f_equal. lia.
  - replace (13 <=? nib) with true by lia.
    replace (len (b0 :: ext ++ rest) <? 2 + 1) with false by lia.
    rewrite Hslice by lia.
    do 3 f_equal. lia.
  - replace (13 <=? nib) with true by lia.
    replace (len (b0 :: ext ++ rest) <? 4 + 1) with false by lia.
    rewrite Hslice by lia.
    do 3 f_equal. lia.
  - replace (13 <=? nib) with false by lia.
    do 3 f_equal. lia.
Qed.

(** Outside the window 65535..65804 and below the four-byte limit,
    [_encode_length] picks the documented nibble and
    [_extract_message_size] reads the length back. *)
Lemma encode_length_inverse (n tkl : Z) (rest : list byte) :
  0 <= n < 65535 \/ 65805 <= n < 65805 + 2 ^ 32 ->
  0 <= tkl < 16 ->
  exists nib ext b0,
    _encode_length n = Ok (nib, ext) /\
    nib = (if n <? 13 then n else if n <? 269 then 13
           else if n <? 65805 then 14 else 15) /\
    mk_byte (Z.lor (Z.shiftl nib 4) tkl) = Some b0 /\
    _extract_message_size (b0 :: ext ++ rest) = Some (2 + len ext, tkl, n).
Proof.
  intros Hn Htkl. unfold _encode_length.
  assert (Hmk : forall nib, 0 <= nib < 16 ->
            is_Some (mk_byte (Z.lor (Z.shiftl nib 4) tkl))).
  { intros nib Hnib. apply mk_byte_is_Some.
    rewrite header_byte_value by lia. lia. }
  destruct (n <? 13) eqn:E1; [|destruct (n <? 269) eqn:E2;
    [|destruct (n <? 65535) eqn:E3]].
  - destruct (Hmk n ltac:(lia)) as [b0 Hb0].
    exists n, [], b0. repeat split; [done|].
    rewrite (extract_message_size_header n tkl b0 [] rest) by
      (try done; try lia;
       replace (n =? 13) with false by lia; replace (n =? 14) with false by lia;
       replace (n =? 15) with false by lia; done).
    replace (n =? 13) with false by lia. replace (n =? 14) with false by lia.
    replace (n =? 15) with false by lia. done.
  - destruct (Hmk 13 ltac:(lia)) as [b0 Hb0].
    rewrite to_bytes_Ok by (change (256 ^ Z.of_nat 1) with 256; lia).
    exists 13, (be_digits 1 (n - 13)), b0. repeat split; [done|].
    rewrite (extract_message_size_header 13 tkl b0) by
      (try done; try lia; unfold len; by rewrite length_be_digits).
    cbn [Z.eqb Pos.eqb].
    rewrite from_bytes_be_digits by (change (256 ^ Z.of_nat 1) with 256; lia).
    do 3 f_equal. lia.
  - destruct (Hmk 14 ltac:(lia)) as [b0 Hb0].
    rewrite to_bytes_Ok by (change (256 ^ Z.of_nat 2) with 65536; lia).
    replace (n <? 65805) with true by lia.
    exists 14, (be_digits 2 (n - 269)), b0. repeat split; [done|].
    rewrite (extract_message_size_header 14 tkl b0) by
      (try done; try lia; unfold len; by rewrite length_be_digits).
    cbn [Z.eqb Pos.eqb].
    rewrite from_bytes_be_digits by (change (256 ^ Z.of_nat 2) with 65536; lia).
    do 3 f_equal. lia.
  - destruct (Hmk 15 ltac:(lia)) as [b0 Hb0].
    rewrite to_bytes_Ok by (change (256 ^ Z.of_nat 4) with (2 ^ 32); lia).
    replace (n <? 65805) with false by lia.
    exists 15, (be_digits 4 (n - 65805)), b0. repeat split; [done|].
    rewrite (extract_message_size_header 15 tkl b0) by
      (try done; try lia; unfold len; by rewrite length_be_digits).
    cbn [Z.eqb Pos.eqb].
    rewrite from_bytes_be_digits by (change (256 ^ Z.of_nat 4) with (2 ^ 32); lia).
    do 3 f_equal. lia.
Qed.

(** In the window 65535..65804 [_encode_length] takes its last branch and
    asks for the bytes of a negative number. *)
Lemma encode_length_window (n : Z) :
  65535 <= n < 65805 -> _encode_length n = Raise OverflowError.
Proof.
  intros Hn. unfold _encode_length.
  replace (n <? 13) with false by lia. replace (n <? 269) with false by lia.
  replace (n <? 65535) with false by lia.
  by rewrite to_bytes_negative by lia.
Qed.

(** The lengths [_encode_length] accepts. *)
Lemma encode_length_Ok_range (n nib : Z) (ext : list byte) :
  0 <= n -> _encode_length n = Ok (nib, ext) ->
  n < 65535 \/ 65805 <= n < 65805 + 2 ^ 32.
Proof.
  intros Hn. unfold _encode_length.
  destruct (n <? 13) eqn:E1; [lia|].
  destruct (n <? 269) eqn:E2; [lia|].
  destruct (n <? 65535) eqn:E3; [lia|].
  unfold to_bytes.
  destruct (n - 65805 <? 0) eqn:E4; [discriminate|].
  destruct (256 ^ Z.of_nat 4 <=? n - 65805) eqn:E5; [discriminate|].
  change (256 ^ Z.of_nat 4) with (2 ^ 32) in E5. lia.
Qed.

(** C1. [_encode_length] at the eight documented thresholds: at 12, 13, 268,
    269, 65534 and 65805 it yields the documented nibble and offset-adjusted
    extension bytes; at 65535 and 65804, where code 14 is documented, it
    raises [OverflowError]. *)
Theorem encode_length_thresholds :
  _encode_length 12 = Ok (12, []) /\
  _encode_length 13 = Ok (13, [x00]) /\
  _encode_length 268 = Ok (13, [xff]) /\
  _encode_length 269 = Ok (14, [x00; x00]) /\
  _encode_length 65534 = Ok (14, [xfe; xf1]) /\
  _encode_length 65535 = Raise OverflowError /\
  _encode_length 65804 = Raise OverflowError /\
  _encode_length 65805 = Ok (15, [x00; x00; x00; x00]).
Proof. repeat split; reflexivity. Qed.

Section CodecFacts.
Context `{Collaborators}.

(** Where the code byte, the token and the body sit in a frame. *)
Lemma frame_parts (b0 c : byte) (ext tok body : list byte) :
  let data := b0 :: ext ++ c :: tok ++ body in
  index data (2 + len ext - 1) = Some c /\
  slice data (2 + len ext) (2 + len ext + len tok) = tok /\
  drop (Z.to_nat (2 + len ext + len tok)) data = body.
Proof.
  intros data. subst data. unfold index, slice, len.
  replace (2 + Z.of_nat (length ext) - 1 <? 0) with false by cmp.
  replace (Z.to_nat (2 + Z.of_nat (length ext) - 1)) with (S (length ext)) by lia.
  replace (Z.to_nat (2 + Z.of_nat (length ext) + Z.of_nat (length tok)
                     - (2 + Z.of_nat (length ext)))) with (length tok) by lia.
  replace (Z.to_nat (2 + Z.of_nat (length ext))) with (S (length ext + 1)) by lia.
  replace (Z.to_nat (2 + Z.of_nat (length ext) + Z.of_nat (length tok)))
    with (S (length ext + 1 + length tok)) by lia.
  cbn [lookup list_lookup drop].
  split; [apply list_lookup_middle; done|].
  replace (ext ++ c :: tok ++ body) with ((ext ++ [c]) ++ tok ++ body)
    by (by rewrite <- app_assoc).
  split.
  - rewrite drop_app_length' by (rewrite length_app; simpl; lia).
    by rewrite take_app_length.
  - rewrite app_assoc.
    rewrite drop_app_length' by (rewrite !length_app; simpl; lia). done.
Qed.

(** Round trip of a frame whose body length [_encode_length] can encode:
    [_serialize] succeeds, the frame measures as header, token and body,
    and [_decode_message] recovers the code and the token and hands the
    options codec exactly the body that [_serialize] joined. *)
Lemma serialize_decode_roundtrip (msg : Message) :
  len (token msg) <= 8 ->
  0 <= code msg < 256 ->
  len (body_of msg) < 65535 \/ 65805 <= len (body_of msg) < 65805 + 2 ^ 32 ->
  exists data off,
    _serialize msg = Ok data /\
    _extract_message_size data = Some (off, len (token msg), len (body_of msg)) /\
    len data = off + len (token msg) + len (body_of msg) /\
    _decode_message data =
      match opt_decode (body_of msg) with
      | Some (opts, pl) =>
        Ok {| code := code msg; token := token msg; opt := opts; payload := pl |}
      | None => Raise UnparsableMessage
      end.
Proof.
  intros Htok Hcode Hbody.
  pose proof (len_nonneg (token msg)) as Htok0.
  pose proof (len_nonneg (body_of msg)) as Hbody0.
  destruct (mk_byte_is_Some (code msg) Hcode) as [c Hc].
  destruct (encode_length_inverse (len (body_of msg)) (len (token msg))
              (c :: token msg ++ body_of msg)) as (nib & ext & b0 & He & _ & Hb0 & Hx);
    [lia|lia|].
  exists (b0 :: ext ++ c :: token msg ++ body_of msg), (2 + len ext).
  destruct (frame_parts b0 c ext (token msg) (body_of msg)) as (Hi & Hs & Hd).
  repeat split.
  - unfold _serialize. rewrite He.
    replace (8 <? len (token msg)) with false by lia.
    by rewrite Hb0, Hc.
  - done.
  - unfold len. simpl. rewrite !length_app. simpl. rewrite length_app. lia.
  - unfold _decode_message. rewrite Hx.
    replace (8 <? len (token msg)) with false by lia.
    rewrite Hi, Hs, Hd. apply mk_byte_val in Hc. rewrite Hc.
    by destruct (opt_decode (body_of msg)) as [[opts pl]|].
Qed.

(** A message whose body is 65535 to 65804 bytes long cannot be
    serialized: [_encode_length] raises before a byte is produced. *)
Lemma serialize_window (msg : Message) :
  65535 <= len (body_of msg) < 65805 -> _serialize msg = Raise OverflowError.
Proof.
  intros Hbody. unfold _serialize. by rewrite encode_length_window.
Qed.

End CodecFacts.

(** C2. A valid message (code 0.01, empty token, no option) with a payload
    of 65534 bytes, hence a body of 65535 bytes: [_serialize] raises
    [OverflowError], so there is no frame for [_decode_message] to read
    back. *)
Theorem serialize_raises_in_window :
  @_serialize coap_tcp
    {| code := 1; token := []; opt := [];
       payload := replicate (Z.to_nat 65534) x00 |} = Raise OverflowError.
Proof.
  apply serialize_window. unfold body_of. cbn [opt payload opt_encode coap_tcp encode_options].
  remember (replicate (Z.to_nat 65534) x00) as p eqn:Hp.
  assert (Hlen : length p = Z.to_nat 65534) by (subst p; apply length_replicate).
  destruct p as [|b p]; cbn [length] in Hlen; [lia|].
  unfold len. cbn [app length]. lia.
Qed.

(** ** The connection: what a method leaves alone *)

Lemma with_spool_spool (c : TcpConnection) : with_spool (_spool c) c = c.
Proof. by destruct c. Qed.

Lemma with_spool_twice (s s' : list byte) (c : TcpConnection) :
  with_spool s (with_spool s' c) = with_spool s c.
Proof. done. Qed.

Lemma spool_blind_spool {A} (m : M A) c c1 calls r :
  spool_blind m -> m c = (c1, calls, r) -> _spool c1 = _spool c.
Proof.
  intros Hm Hc. specialize (Hm (_spool c) c).
  rewrite with_spool_spool, Hc in Hm. injection Hm as Hm. by rewrite Hm.
Qed.

Lemma spool_blind_ret {A} (a : A) : spool_blind (ret a).
Proof. by intros s c. Qed.

Lemma spool_blind_raise {A} (e : exn) : spool_blind (@raise A e).
Proof. by intros s c. Qed.

Lemma spool_blind_emit (x : call) : spool_blind (emit x).
Proof. by intros s c. Qed.

Lemma spool_blind_bind {A B} (m : M A) (f : A -> M B) :
  spool_blind m -> (forall a, spool_blind (f a)) -> spool_blind (bind m f).
Proof.
  intros Hm Hf s c. unfold bind. rewrite Hm.
  destruct (m c) as [[c1 calls1] [a|e]]; [|done].
  rewrite Hf. by destruct (f a c1) as [[c2 calls2] r].
Qed.

Lemma preserves_ret {A} P (a : A) : preserves P (ret a).
Proof. by intros c c1 calls r [= <- _ _]. Qed.

Lemma preserves_raise {A} P (e : exn) : preserves P (@raise A e).
Proof. by intros c c1 calls r [= <- _ _]. Qed.

Lemma preserves_emit P (x : call) : preserves P (emit x).
Proof. by intros c c1 calls r [= <- _ _]. Qed.

Lemma preserves_get P : preserves P get.
Proof. by intros c c1 calls r [= <- _ _]. Qed.

Lemma preserves_bind {A B} P (m : M A) (f : A -> M B) :
  preserves P m -> (forall a, preserves P (f a)) -> preserves P (bind m f).
Proof.
  intros Hm Hf c c2 calls r. unfold bind.
  destruct (m c) as [[c1 calls1] [a|e]] eqn:Em.
  - destruct (f a c1) as [[c2' calls2] r'] eqn:Ef. intros [= <- _ _] HP.
    eapply Hf; [done|]. eapply Hm; done.
  - intros [= <- _ _] HP. eapply Hm; done.
Qed.

Lemma spool_blind_set_remote_setting key v : spool_blind (set_remote_setting key v).
Proof. intros s c. unfold set_remote_setting. simpl. by destruct (_remote_settings c). Qed.

Lemma spool_blind_reset_remote_settings : spool_blind reset_remote_settings.
Proof. by intros s c. Qed.

Lemma preserves_known_set_remote_setting key v :
  preserves settings_known (set_remote_setting key v).
Proof.
  intros c c1 calls r. unfold set_remote_setting, settings_known.
  destruct (_remote_settings c) eqn:E; intros [= <- _ _]; simpl; [eauto|].
  by rewrite E.
Qed.

Lemma preserves_max_set_remote_setting n key v :
  preserves (fun c => _my_max_message_size c = n) (set_remote_setting key v).
Proof.
  intros c c1 calls r. unfold set_remote_setting.
  by destruct (_remote_settings c); intros [= <- _ _].
Qed.

Create HintDb conn discriminated.
#[local] Hint Resolve spool_blind_ret spool_blind_raise spool_blind_emit
  spool_blind_set_remote_setting spool_blind_reset_remote_settings
  preserves_ret preserves_raise preserves_emit preserves_get
  preserves_known_set_remote_setting preserves_max_set_remote_setting : conn.

Section ConnectionFacts.
Context `{Collaborators}.
Local Open Scope conn_scope.

(** Splits a method into its parts and settles each with the facts on the
    primitive methods. *)
Ltac frame :=
  repeat first
    [ progress eauto with conn
    | apply spool_blind_bind; [|intros ?]
    | apply preserves_bind; [|intros ?]
    | match goal with
      | |- context [if ?b then _ else _] => destruct b
      | |- context [match ?x with _ => _ end] => destruct x
      end ].

Lemma spool_blind_send_message msg : spool_blind (_send_message msg).
Proof. unfold _send_message. destruct (_serialize msg); frame. Qed.

Lemma preserves_send_message P msg : preserves P (_send_message msg).
Proof. unfold _send_message. destruct (_serialize msg); frame. Qed.

#[local] Hint Resolve spool_blind_send_message preserves_send_message : conn.

Lemma spool_blind_abort e o : spool_blind (abort e o).
Proof. unfold abort. destruct o; frame. Qed.

Lemma preserves_abort P e o : preserves P (abort e o).
Proof. unfold abort. destruct o; frame. Qed.

#[local] Hint Resolve spool_blind_abort preserves_abort : conn.

Lemma spool_blind_csm_options opts : spool_blind (csm_options opts).
Proof. induction opts as [|o opts IH]; cbn [csm_options]; frame. Qed.

Lemma preserves_known_csm_options opts : preserves settings_known (csm_options opts).
Proof. induction opts as [|o opts IH]; cbn [csm_options]; frame. Qed.

Lemma preserves_max_csm_options n opts :
  preserves (fun c => _my_max_message_size c = n) (csm_options opts).
Proof. induction opts as [|o opts IH]; cbn [csm_options]; frame. Qed.

Lemma spool_blind_other_options opts : spool_blind (other_options opts).
Proof. induction opts as [|o opts IH]; cbn [other_options]; frame. Qed.

Lemma preserves_other_options P opts : preserves P (other_options opts).
Proof. induction opts as [|o opts IH]; cbn [other_options]; frame. Qed.

#[local] Hint Resolve spool_blind_csm_options preserves_known_csm_options
  preserves_max_csm_options spool_blind_other_options
  preserves_other_options : conn.

Lemma ensure_settings_run c :
  ensure_settings c =
  (match _remote_settings c with
   | None => {| _spool := _spool c;
                _my_max_message_size := _my_max_message_size c;
                _remote_settings := Some ∅ |}
   | Some _ => c
   end, [], Ok tt).
Proof. unfold ensure_settings, bind, get. by destruct (_remote_settings c). Qed.

Lemma spool_blind_ensure_settings : spool_blind ensure_settings.
Proof.
  intros s c. rewrite !ensure_settings_run. simpl.
  by destruct (_remote_settings c).
Qed.

Lemma ensure_settings_known c : settings_known (ensure_settings c).1.1.
Proof.
  rewrite ensure_settings_run. unfold settings_known. simpl.
  destruct (_remote_settings c) eqn:E; simpl; [rewrite E|]; eauto.
Qed.

Lemma preserves_max_ensure_settings n :
  preserves (fun c => _my_max_message_size c = n) ensure_settings.
Proof.
  intros c c1 calls r. rewrite ensure_settings_run.
  by destruct (_remote_settings c); intros [= <- _ _].
Qed.

#[local] Hint Resolve spool_blind_ensure_settings preserves_max_ensure_settings
  : conn.

Lemma spool_blind_process_signaling msg : spool_blind (_process_signaling msg).
Proof. unfold _process_signaling. frame. Qed.

Lemma preserves_max_process_signaling n msg :
  preserves (fun c => _my_max_message_size c = n) (_process_signaling msg).
Proof. unfold _process_signaling. frame. Qed.

Lemma preserves_known_process_signaling msg :
  preserves settings_known (_process_signaling msg).
Proof.
  unfold _process_signaling.
  destruct (code msg =? CSM); [|frame].
  apply preserves_bind; [|frame].
  intros c c1 calls r Hc _. pose proof (ensure_settings_known c) as Hk.
  by rewrite Hc in Hk.
Qed.

(** Processing a CSM leaves the remote settings known, whatever its
    options and however the processing ends. *)
Lemma process_signaling_csm_known msg c :
  code msg = CSM -> settings_known (_process_signaling msg c).1.1.
Proof.
  intros Hcode. unfold _process_signaling.
  rewrite Hcode, Z.eqb_refl. unfold bind at 1.
  pose proof (ensure_settings_known c) as Hk.
  destruct (ensure_settings c) as [[c1 calls1] [[]|e]] eqn:Ee; [|done].
  destruct (csm_options (opt msg) c1) as [[c2 calls2] r] eqn:Eo. simpl in *.
  eapply preserves_known_csm_options; done.
Qed.

(** *** [abort] *)

(** [abort] without a bad option: the frame is written and the transport
    closed, unless the frame cannot be serialized. *)
Lemma abort_run (e : option string) (c : TcpConnection) :
  abort e None c =
  match _serialize (abort_msg e) with
  | Ok frame => (c, [TransportWrite frame; TransportClose], Ok tt)
  | Raise x => (c, [], Raise x)
  end.
Proof.
  unfold abort, _send_message, bind, ret. simpl.
  by destruct (_serialize (abort_msg e)).
Qed.

(** C6. [abort] with a [bad_csm_option] raises [NameError] before the abort
    frame is sent and before the transport is closed: no call is made and
    the connection is left as it was. *)
Theorem abort_bad_csm_option_raises (e : option string) (n : Z) (c : TcpConnection) :
  abort e (Some n) c = (c, [], Raise NameError).
Proof. reflexivity. Qed.

Lemma abort_ok_closes e o c c1 calls :
  abort e o c = (c1, calls, Ok tt) -> existsb closes calls = true.
Proof.
  destruct o as [n|]; [discriminate|]. rewrite abort_run.
  destruct (_serialize (abort_msg e)); [|discriminate].
  by intros [= _ <-].
Qed.

(** *** One pass through the loop body *)

Lemma bind_get_run {A} (f : TcpConnection -> M A) (c : TcpConnection) :
  bind get f c = f c c.
Proof. unfold bind, get. by destruct (f c c) as [[c1 calls1] r1]. Qed.

Lemma data_received_body_unfold (c : TcpConnection) :
  data_received_body c =
  match _extract_message_size (_spool c) with
  | None => (c, [], Ok Break)
  | Some (tokenoffset, tkl, l) =>
    let msglen := tokenoffset + tkl + l in
    if _my_max_message_size c <? msglen then (abort None None ;; ret Return) c
    else if len (_spool c) <? msglen then (c, [], Ok Break)
    else
      match _decode_message (take (Z.to_nat msglen) (_spool c)) with
      | Raise UnparsableMessage =>
        (emit (LogWarning "Received unparsable stream, aborting") ;;
         abort (Some "Failed to parse message"%string) None ;;
         ret Return) c
      | Raise e => (c, [], Raise e)
      | Ok msg => after_frame msg (with_spool (drop (Z.to_nat msglen) (_spool c)) c)
      end
  end.
Proof.
  unfold data_received_body. rewrite bind_get_run.
  destruct (_extract_message_size (_spool c)) as [[[off tkl] l]|]; [|done].
  cbn zeta.
  destruct (_ <? _); [done|].
  destruct (_ <? _); [done|].
  destruct (_decode_message _) as [msg|[]]; try done.
  unfold bind at 1, set_spool at 1. fold (after_frame msg).
  fold (with_spool (drop (Z.to_nat (off + tkl + l)) (_spool c)) c).
  by destruct (after_frame msg _) as [[c1 calls1] r1].
Qed.

Lemma spool_blind_dispatch_continue msg :
  spool_blind (emit (DispatchIncoming msg) ;; ret Continue).
Proof. frame. Qed.

Lemma spool_blind_abort_return e : spool_blind (abort e None ;; ret Return).
Proof. frame. Qed.

Lemma spool_blind_after_frame msg : spool_blind (after_frame msg).
Proof.
  unfold after_frame. destruct (is_signalling (code msg)).
  { apply spool_blind_bind; [apply spool_blind_process_signaling|frame]. }
  intros s c. rewrite !bind_get_run. cbn [_remote_settings with_spool].
  destruct (_remote_settings c).
  - apply spool_blind_dispatch_continue.
  - apply spool_blind_abort_return.
Qed.

(** A method followed by [ret Return]: what can come out of it. *)
Lemma then_return_run {A} (m : M A) c c1 calls r :
  (m ;; ret Return) c = (c1, calls, r) ->
  (exists a, m c = (c1, calls, Ok a) /\ r = Ok Return) \/
  (exists e, m c = (c1, calls, Raise e) /\ r = Raise e).
Proof.
  unfold bind, ret. destruct (m c) as [[c' calls'] [a|e]].
  - rewrite app_nil_r. intros [= <- <- <-]. left. eauto.
  - intros [= <- <- <-]. right. eauto.
Qed.

Lemma then_continue_run {A} (m : M A) c c1 calls r :
  (m ;; ret Continue) c = (c1, calls, r) ->
  (exists a, m c = (c1, calls, Ok a) /\ r = Ok Continue) \/
  (exists e, m c = (c1, calls, Raise e) /\ r = Raise e).
Proof.
  unfold bind, ret. destruct (m c) as [[c' calls'] [a|e]].
  - rewrite app_nil_r. intros [= <- <- <-]. left. eauto.
  - intros [= <- <- <-]. right. eauto.
Qed.

Lemma after_frame_run msg c c1 calls r :
  after_frame msg c = (c1, calls, r) ->
  r <> Ok Break /\ (r = Ok Return -> existsb closes calls = true).
Proof.
  unfold after_frame. destruct (is_signalling (code msg)).
  { intros Hr. apply then_continue_run in Hr as [(a & _ & ->)|(e & _ & ->)]; done. }
  rewrite bind_get_run. destruct (_remote_settings c).
  - intros Hr.
    apply then_continue_run in Hr as [(a & _ & ->)|(e & _ & ->)]; done.
  - intros Hr.
    apply then_return_run in Hr as [([] & Ha & ->)|(e & _ & ->)]; [|done].
    split; [done|]. intros _. by eapply abort_ok_closes.
Qed.

Lemma spool_blind_log_abort_return text e :
  spool_blind (emit (LogWarning text) ;; abort e None ;; ret Return).
Proof. frame. Qed.

(** What a pass can have done, by the way it ended. *)
Lemma data_received_body_run c c1 calls r :
  data_received_body c = (c1, calls, r) ->
  (r = Ok Break -> c1 = c /\ calls = []) /\
  (r = Ok Return -> existsb closes calls = true) /\
  (r = Ok Continue -> (length (_spool c1) < length (_spool c))%nat).
Proof.
  rewrite data_received_body_unfold.
  destruct (_extract_message_size (_spool c)) as [[[off tkl] l]|] eqn:Ex;
    [|by intros [= <- <- <-]].
  apply extract_message_size_bounds in Ex as (Hoff & _ & Htkl & Hl).
  cbn zeta. destruct (_ <? _) eqn:Hmax.
  { intros Hr. apply then_return_run in Hr as [([] & Ha & ->)|(e & _ & ->)]; [|done].
    split; [done|split; [|done]]. intros _. by eapply abort_ok_closes. }
  destruct (len (_spool c) <? _) eqn:Hshort; [by intros [= <- <- <-]|].
  destruct (_decode_message _) as [msg|e].
  - intros Hr. pose proof (after_frame_run _ _ _ _ _ Hr) as [Hnb Hret].
    split; [done|split; [done|]]. intros _.
    rewrite (spool_blind_spool _ _ _ _ _ (spool_blind_after_frame msg) Hr).
    cbn [_spool with_spool]. rewrite length_drop. unfold len in Hshort. lia.
  - assert (Hraise : (c, @nil call, @Raise control e) = (c1, calls, r) ->
      (r = Ok Break -> c1 = c /\ calls = []) /\
      (r = Ok Return -> existsb closes calls = true) /\
      (r = Ok Continue -> (length (_spool c1) < length (_spool c))%nat))
      by (by intros [= <- <- <-]).
    destruct e; try exact Hraise. clear Hraise.
    unfold bind at 1, emit at 1. intros Hr.
    destruct ((abort _ None ;; ret Return) c) as [[c' calls'] r'] eqn:Ha.
    injection Hr as <- <- <-.
    apply then_return_run in Ha as [([] & Ha & ->)|(e & _ & ->)]; [|done].
    split; [done|split; [|done]]. intros _. simpl. by eapply abort_ok_closes.
Qed.

(** A pass that did not end in [break] does the same on a longer spool,
    and leaves the added bytes at the end of the spool. *)
Lemma data_received_body_extend (b : list byte) c c1 calls r :
  data_received_body c = (c1, calls, r) -> r <> Ok Break ->
  data_received_body (extend b c) = (extend b c1, calls, r).
Proof.
  rewrite !data_received_body_unfold.
  change (_spool (extend b c)) with (_spool c ++ b).
  change (_my_max_message_size (extend b c)) with (_my_max_message_size c).
  destruct (_extract_message_size (_spool c)) as [[[off tkl] l]|] eqn:Ex;
    [|by intros [= <- <- <-]].
  rewrite (extract_message_size_app _ b _ Ex).
  apply extract_message_size_bounds in Ex as (Hoff & _ & Htkl & Hl).
  cbn zeta. destruct (_ <? _) eqn:Hmax.
  { intros Hr _.
    etrans; [apply (spool_blind_abort_return None (_spool c ++ b) c)|].
    rewrite Hr. unfold extend.
    by rewrite (spool_blind_spool _ _ _ _ _ (spool_blind_abort_return None) Hr). }
  destruct (len (_spool c) <? _) eqn:Hshort; [by intros [= <- <- <-]|].
  rewrite len_app. pose proof (len_nonneg b).
  replace (len (_spool c) + len b <? off + tkl + l) with false by lia.
  rewrite take_app_le, drop_app_le by (unfold len in Hshort; lia).
  destruct (_decode_message _) as [msg|e].
  - intros Hr _.
    etrans; [apply (spool_blind_after_frame msg
      (drop (Z.to_nat (off + tkl + l)) (_spool c) ++ b)
      (with_spool (drop (Z.to_nat (off + tkl + l)) (_spool c)) c))|].
    rewrite Hr. unfold extend.
    by rewrite (spool_blind_spool _ _ _ _ _ (spool_blind_after_frame msg) Hr).
  - assert (Hraise : (c, @nil call, @Raise control e) = (c1, calls, r) ->
      r <> Ok Break ->
      (extend b c, @nil call, @Raise control e)
      = (extend b c1, calls, r)) by (by intros [= <- <- <-]).
    destruct e; try exact Hraise. clear Hraise.
    intros Hr _.
    etrans; [apply (spool_blind_log_abort_return _ _ (_spool c ++ b) c)|].
    rewrite Hr. unfold extend.
    by rewrite (spool_blind_spool _ _ _ _ _ (spool_blind_log_abort_return _ _) Hr).
Qed.

(** *** The loop *)

Lemma data_received_loop_unfold (fuel : nat) (c : TcpConnection) :
  data_received_loop (S fuel) c =
  match data_received_body c with
  | (c1, calls1, Ok Continue) =>
    let '(c2, calls2, r) := data_received_loop fuel c1 in (c2, calls1 ++ calls2, r)
  | (c1, calls1, Ok ctl) => (c1, calls1, Ok ctl)
  | (c1, calls1, Raise e) => (c1, calls1, Raise e)
  end.
Proof.
  cbn [data_received_loop]. unfold bind at 1.
  destruct (data_received_body c) as [[c1 calls1] [[]|e]]; try done;
    unfold ret; by rewrite app_nil_r.
Qed.

(** With more passes allowed than the spool has bytes, the loop is left by
    [break], by [return] or by an exception: the bound is never what ends
    it. *)
Lemma data_received_loop_total (fuel : nat) c c1 calls r :
  (length (_spool c) < fuel)%nat ->
  data_received_loop fuel c = (c1, calls, r) -> r <> Ok Continue.
Proof.
  revert c c1 calls r. induction fuel as [|fuel IH]; intros c c1 calls r Hf; [lia|].
  rewrite data_received_loop_unfold.
  destruct (data_received_body c) as [[c' calls'] [[]|e]] eqn:Hb;
    try (by intros [= <- <- <-]).
  destruct (data_received_body_run _ _ _ _ Hb) as (_ & _ & Hlt).
  specialize (Hlt eq_refl).
  destruct (data_received_loop fuel c') as [[c2 calls2] r2] eqn:Hl.
  intros [= <- <- <-]. eapply IH; [|done]. lia.
Qed.

(** A loop that ended by itself ends the same way under any larger bound. *)
Lemma data_received_loop_mono (fuel fuel' : nat) c c1 calls r :
  data_received_loop fuel c = (c1, calls, r) -> r <> Ok Continue ->
  (fuel <= fuel')%nat -> data_received_loop fuel' c = (c1, calls, r).
Proof.
  revert fuel' c c1 calls r.
  induction fuel as [|fuel IH]; intros fuel' c c1 calls r.
  { by intros [= <- <- <-]. }
  destruct fuel' as [|fuel']; [lia|]. rewrite !data_received_loop_unfold.
  destruct (data_received_body c) as [[c' calls'] [[]|e]] eqn:Hb; try done.
  destruct (data_received_loop fuel c') as [[c2 calls2] r2] eqn:Hl.
  intros [= <- <- <-] Hr Hle.
  by rewrite (IH fuel' _ _ _ _ Hl Hr) by lia.
Qed.

Lemma data_received_loop_fuel (f1 f2 : nat) c c1 calls r :
  data_received_loop f1 c = (c1, calls, r) -> r <> Ok Continue ->
  (length (_spool c) < f2)%nat -> data_received_loop f2 c = (c1, calls, r).
Proof.
  intros H1 Hr Hf2. destruct (decide (f1 <= f2)%nat) as [Hle|Hgt].
  { by eapply data_received_loop_mono. }
  destruct (data_received_loop f2 c) as [[c2 calls2] r2] eqn:H2.
  pose proof (data_received_loop_total _ _ _ _ _ Hf2 H2) as Hr2.
  rewrite (data_received_loop_mono f2 f1 _ _ _ _ H2 Hr2) in H1 by lia. done.
Qed.

(** A loop left by [return] or by an exception runs the same on a longer
    spool. *)
Lemma data_received_loop_extend (b : list byte) (fuel : nat) c c1 calls r :
  data_received_loop fuel c = (c1, calls, r) ->
  r <> Ok Continue -> r <> Ok Break ->
  data_received_loop fuel (extend b c) = (extend b c1, calls, r).
Proof.
  revert c c1 calls r. induction fuel as [|fuel IH]; intros c c1 calls r.
  { by intros [= <- <- <-]. }
  rewrite !data_received_loop_unfold.
  destruct (data_received_body c) as [[c' calls'] r'] eqn:Hb.
  intros Hl Hnc Hnb.
  assert (Hr' : r' <> Ok Break) by (intros ->; by injection Hl as <- <- <-).
  rewrite (data_received_body_extend b _ _ _ _ Hb Hr').
  destruct r' as [[]|e]; try done.
  - destruct (data_received_loop fuel c') as [[c2 calls2] r2] eqn:Hl2.
    injection Hl as <- <- <-. by rewrite (IH _ _ _ _ Hl2).
  - injection Hl as <- <- <-. done.
  - injection Hl as <- <- <-. done.
Qed.

(** A loop left by [break] picks up where it stopped once more bytes are
    there. *)
Lemma data_received_loop_resume (b : list byte) (fuel k : nat) c c1 calls c2 calls2 r2 :
  data_received_loop fuel c = (c1, calls, Ok Break) ->
  data_received_loop k (extend b c1) = (c2, calls2, r2) -> r2 <> Ok Continue ->
  data_received_loop (fuel + k) (extend b c) = (c2, calls ++ calls2, r2).
Proof.
  revert c calls. induction fuel as [|fuel IH]; intros c calls; [done|].
  rewrite data_received_loop_unfold.
  destruct (data_received_body c) as [[c' calls'] [[]|e]] eqn:Hb; try done.
  - intros [= <- <-] Hk Hr2.
    destruct (data_received_body_run _ _ _ _ Hb) as (Hbr & _ & _).
    destruct (Hbr eq_refl) as [-> ->].
    eapply data_received_loop_mono; [done|done|lia].
  - destruct (data_received_loop fuel c') as [[c3 calls3] r3] eqn:Hl.
    intros [= <- <- ->] Hk Hr2.
    cbn [Nat.add]. rewrite data_received_loop_unfold.
    rewrite (data_received_body_extend b _ _ _ _ Hb) by done.
    rewrite (IH _ _ Hl Hk Hr2). by rewrite app_assoc.
Qed.

Lemma data_received_loop_return_closes (fuel : nat) c c1 calls :
  data_received_loop fuel c = (c1, calls, Ok Return) ->
  existsb closes calls = true.
Proof.
  revert c c1 calls. induction fuel as [|fuel IH]; intros c c1 calls; [done|].
  rewrite data_received_loop_unfold.
  destruct (data_received_body c) as [[c' calls'] [[]|e]] eqn:Hb; try done.
  - destruct (data_received_loop fuel c') as [[c2 calls2] r2] eqn:Hl.
    intros [= <- <- ->]. rewrite existsb_app, (IH _ _ _ Hl). apply orb_true_r.
  - intros [= <- <-]. by apply (data_received_body_run _ _ _ _ Hb).
Qed.

(** *** [data_received] *)

Lemma data_received_unfold (d : list byte) (c : TcpConnection) :
  data_received d c = let '(c1, calls, r) := run d c in (c1, calls, forget r).
Proof.
  unfold data_received, run. rewrite bind_get_run.
  unfold bind at 1, set_spool at 1. fold (with_spool (_spool c ++ d) c).
  fold (extend d c). rewrite bind_get_run.
  change (_spool (extend d c)) with (_spool c ++ d).
  unfold bind, ret.
  destruct (data_received_loop _ _) as [[c1 calls1] [ctl|e]]; [|done].
  by rewrite app_nil_r.
Qed.

Lemma run_total d c c1 calls r : run d c = (c1, calls, r) -> r <> Ok Continue.
Proof. apply data_received_loop_total. cbn [extend with_spool _spool]. lia. Qed.

Lemma extend_extend (a b : list byte) (c : TcpConnection) :
  extend b (extend a c) = extend (a ++ b) c.
Proof. unfold extend, with_spool. simpl. by rewrite app_assoc. Qed.

(** A delivery whose loop was left by [break], followed by a second one, is
    the delivery of both chunks at once. *)
Lemma run_app_break (a b : list byte) c c1 calls1 :
  run a c = (c1, calls1, Ok Break) ->
  run (a ++ b) c =
  let '(c2, calls2, r2) := run b c1 in (c2, calls1 ++ calls2, r2).
Proof.
  intros Ha. destruct (run b c1) as [[c2 calls2] r2] eqn:Hb.
  pose proof (run_total _ _ _ _ _ Hb) as Hr2.
  unfold run in Ha, Hb.
  pose proof (data_received_loop_resume b _ _ _ _ _ _ _ _ Ha Hb Hr2) as Hres.
  rewrite extend_extend in Hres.
  unfold run. eapply data_received_loop_fuel; [exact Hres|done|].
  cbn [extend with_spool _spool]. lia.
Qed.

(** A delivery whose loop was left by [return] or by an exception ends the
    same way, after the same calls, when more bytes come with it. *)
Lemma run_app_stop (a b : list byte) c c1 calls1 r :
  run a c = (c1, calls1, r) -> r <> Ok Break ->
  run (a ++ b) c = (extend b c1, calls1, r).
Proof.
  intros Ha Hnb. pose proof (run_total _ _ _ _ _ Ha) as Hnc.
  unfold run in Ha.
  pose proof (data_received_loop_extend b _ _ _ _ _ Ha Hnc Hnb) as Hext.
  rewrite extend_extend in Hext.
  unfold run. eapply data_received_loop_fuel; [exact Hext|done|].
  cbn [extend with_spool _spool]. lia.
Qed.

Lemma deliver_cons (stop_at_close : bool) d rest c :
  deliver stop_at_close (d :: rest) c =
  match data_received d c with
  | (c1, calls1, Ok _) =>
    if stop_at_close && existsb closes calls1 then (c1, calls1, Ok tt)
    else
      let '(c2, calls2, r) := deliver stop_at_close rest c1 in
      (c2, calls1 ++ calls2, r)
  | (c1, calls1, Raise e) => (c1, calls1, Raise e)
  end.
Proof. reflexivity. Qed.

(** Delivery in chunks against delivery at once, when the delivery at once
    returns and never closes the transport. *)
Lemma deliver_concat (stop_at_close : bool) (chunks : list (list byte)) :
  forall (d : list byte) c c' calls,
    data_received (d ++ concat chunks) c = (c', calls, Ok tt) ->
    existsb closes calls = false ->
    deliver stop_at_close (d :: chunks) c = (c', calls, Ok tt).
Proof.
  induction chunks as [|e rest IH]; intros d c c' calls Hall Hopen.
  - cbn [concat] in Hall. rewrite app_nil_r in Hall.
    rewrite deliver_cons, Hall, Hopen, andb_false_r. cbn [deliver].
    by rewrite app_nil_r.
  - cbn [concat] in Hall. rewrite data_received_unfold in Hall.
    rewrite deliver_cons, data_received_unfold.
    destruct (run d c) as [[c1 calls1] r1] eqn:Hd.
    assert (r1 = Ok Break \/ r1 <> Ok Break) as [->|Hnb]
      by (destruct r1 as [[]|x]; first [by left|by right]).
    + rewrite (run_app_break _ _ _ _ _ Hd) in Hall.
      destruct (run (e ++ concat rest) c1) as [[c2 calls2] r2] eqn:He.
      injection Hall as <- <- Hr2.
      rewrite existsb_app in Hopen. apply orb_false_elim in Hopen as [Ho1 Ho2].
      cbn [forget]. rewrite Ho1, andb_false_r.
      rewrite (IH e c1 c2 calls2); [done| |done].
      rewrite data_received_unfold, He. by rewrite Hr2.
    + rewrite (run_app_stop _ _ _ _ _ _ Hd Hnb) in Hall.
      injection Hall as <- <- Hr1.
      pose proof (run_total _ _ _ _ _ Hd) as Hnc.
      destruct r1 as [[]|x]; try done.
      unfold run in Hd. apply data_received_loop_return_closes in Hd.
      congruence.
Qed.

Lemma concat_singletons {A} (l : list A) : concat (map (fun x => [x]) l) = l.
Proof. induction l as [|x l IH]; simpl; [done|]. by rewrite IH. Qed.

(** When the delivery of a byte sequence as a single chunk returns without
    an exception and without closing the transport, its delivery one byte at
    a time makes the same calls in the same order and leaves the connection
    in the same state. *)
Lemma chunking_invariance (stop_at_close : bool) (c : TcpConnection)
  (b : byte) (data : list byte) (c' : TcpConnection) (calls : list call) :
  data_received (b :: data) c = (c', calls, Ok tt) ->
  existsb closes calls = false ->
  deliver stop_at_close (map (fun x => [x]) (b :: data)) c = (c', calls, Ok tt).
Proof.
  intros Hall Hopen. cbn [map]. apply deliver_concat; [|done].
  by rewrite concat_singletons.
Qed.

(** *** Frames at the head of the spool *)

Lemma data_received_body_head_frame c msg rest :
  head_frame c msg rest ->
  data_received_body c = after_frame msg (with_spool rest c).
Proof.
  intros (off & tkl & l & Ex & Hmax & Hlen & Hdec & ->).
  rewrite data_received_body_unfold, Ex. cbn zeta.
  replace (_my_max_message_size c <? off + tkl + l) with false by lia.
  replace (len (_spool c) <? off + tkl + l) with false by lia.
  by rewrite Hdec.
Qed.

Lemma other_options_elective (opts : list Opt) (c : TcpConnection) :
  Forall (fun o => is_critical (number o) = false) opts ->
  other_options opts c = (c, [], Ok tt).
Proof.
  induction 1 as [|o opts Ho _ IH]; [done|].
  cbn [other_options]. rewrite Ho. unfold bind, ret. by rewrite IH.
Qed.

(** C7, as amended. A ping frame none of whose options is critical: the
    pass that takes it off the spool writes exactly one frame, the
    serialized pong with the ping's token, dispatches nothing, and the loop
    goes on with the rest of the spool. A pong frame without a critical
    option is taken off the spool and nothing else happens. *)
Theorem ping_pong (fuel : nat) (c : TcpConnection) (msg : Message)
  (rest : list byte) :
  head_frame c msg rest ->
  is_signalling (code msg) = true ->
  code msg <> CSM ->
  Forall (fun o => is_critical (number o) = false) (opt msg) ->
  (code msg = PING ->
   forall frame, _serialize (new_message PONG (token msg)) = Ok frame ->
     data_received_loop (S fuel) c =
     let '(c2, calls2, r) := data_received_loop fuel (with_spool rest c) in
     (c2, TransportWrite frame :: calls2, r)) /\
  (code msg = PONG -> PONG <> PING ->
   data_received_loop (S fuel) c = data_received_loop fuel (with_spool rest c)).
Proof.
  intros Hhead Hsig Hcsm Hopts.
  rewrite data_received_loop_unfold, (data_received_body_head_frame _ _ _ Hhead).
  unfold after_frame. rewrite Hsig. unfold _process_signaling.
  replace (code msg =? CSM) with false by cmp.
  split.
  - intros Hping frame Hframe. rewrite Hping, Z.eqb_refl. cbn [orb].
    unfold bind at 1 2. rewrite other_options_elective by done.
    unfold _send_message. rewrite Hframe. cbn.
    by destruct (data_received_loop fuel (with_spool rest c)) as [[c2 calls2] r].
  - intros Hpong Hne. rewrite Hpong, Z.eqb_refl.
    replace (PONG =? PING) with false by cmp. cbn [orb].
    unfold bind at 1 2. rewrite other_options_elective by done. cbn.
    by destruct (data_received_loop fuel (with_spool rest c)) as [[c2 calls2] r].
Qed.

(** *** Remote settings and the size limit *)

Lemma preserves_known_set_spool s : preserves settings_known (set_spool s).
Proof. by intros c c1 calls r [= <- _ _]. Qed.

Lemma preserves_max_set_spool n s :
  preserves (fun c => _my_max_message_size c = n) (set_spool s).
Proof. by intros c c1 calls r [= <- _ _]. Qed.

#[local] Hint Resolve preserves_known_set_spool preserves_max_set_spool
  preserves_known_process_signaling preserves_max_process_signaling : conn.

Lemma preserves_known_body : preserves settings_known data_received_body.
Proof. unfold data_received_body. frame. Qed.

Lemma preserves_max_body n :
  preserves (fun c => _my_max_message_size c = n) data_received_body.
Proof. unfold data_received_body. frame. Qed.

Lemma preserves_loop P (fuel : nat) :
  preserves P data_received_body -> preserves P (data_received_loop fuel).
Proof.
  intros Hbody. induction fuel as [|fuel IH]; cbn [data_received_loop]; [frame|].
  apply preserves_bind; [done|]. intros []; frame.
Qed.

Lemma preserves_known_data_received d : preserves settings_known (data_received d).
Proof.
  unfold data_received.
  apply preserves_bind; [frame|intros c0].
  apply preserves_bind; [frame|intros _].
  apply preserves_bind; [frame|intros c1].
  apply preserves_bind; [|frame].
  apply preserves_loop, preserves_known_body.
Qed.

Lemma preserves_max_data_received n d :
  preserves (fun c => _my_max_message_size c = n) (data_received d).
Proof.
  unfold data_received.
  apply preserves_bind; [frame|intros c0].
  apply preserves_bind; [frame|intros _].
  apply preserves_bind; [frame|intros c1].
  apply preserves_bind; [|frame].
  apply preserves_loop, preserves_max_body.
Qed.

Lemma abort_return_run (e : option string) (c : TcpConnection) :
  (abort e None ;; ret Return) c =
  match _serialize (abort_msg e) with
  | Ok frame => (c, [TransportWrite frame; TransportClose], Ok Return)
  | Raise x => (c, [], Raise x)
  end.
Proof.
  unfold bind at 1. rewrite abort_run.
  by destruct (_serialize (abort_msg e)).
Qed.

(** C4. An application message taken off the spool while the remote
    settings are unknown is not dispatched: the connection calls
    [abort("No CSM received")], so the abort frame with that diagnostic is
    written, the transport closed, and [data_received] returns. With known
    settings the message is dispatched and the loop goes on. Processing a
    CSM makes the settings known, and known settings stay known. *)
Theorem capability_gating (fuel : nat) (c : TcpConnection) (msg : Message)
  (rest : list byte) :
  head_frame c msg rest ->
  is_signalling (code msg) = false ->
  (_remote_settings c = None ->
   dispatched (data_received_loop (S fuel) c).1.2 = [] /\
   forall frame,
     _serialize (abort_msg (Some "No CSM received"%string)) = Ok frame ->
     data_received_loop (S fuel) c =
     (with_spool rest c, [TransportWrite frame; TransportClose], Ok Return)) /\
  (settings_known c ->
   data_received_loop (S fuel) c =
   let '(c2, calls2, r) := data_received_loop fuel (with_spool rest c) in
   (c2, DispatchIncoming msg :: calls2, r)) /\
  (forall m c0, code m = CSM -> settings_known (_process_signaling m c0).1.1) /\
  (forall d c0, settings_known c0 -> settings_known (data_received d c0).1.1).
Proof.
  intros Hhead Hsig.
  rewrite data_received_loop_unfold, (data_received_body_head_frame _ _ _ Hhead).
  unfold after_frame. rewrite Hsig, bind_get_run. cbn [_remote_settings with_spool].
  split; [|split; [|split]].
  - intros ->. rewrite abort_return_run.
    destruct (_serialize (abort_msg _)) as [frame|x]; [|done].
    split; [done|]. by intros ? [= <-].
  - intros [d ->]. unfold bind at 1, emit, ret. cbn.
    by destruct (data_received_loop fuel (with_spool rest c)) as [[c2 calls2] r].
  - intros m c0. apply process_signaling_csm_known.
  - intros d c0 Hk.
    destruct (data_received d c0) as [[c1 calls1] r1] eqn:Hd.
    by eapply preserves_known_data_received.
Qed.

(** An oversized frame at the head of the spool: the loop calls [abort()]
    and returns. *)
Lemma data_received_loop_oversize (fuel : nat) (c : TcpConnection) (off tkl l : Z) :
  _extract_message_size (_spool c) = Some (off, tkl, l) ->
  _my_max_message_size c < off + tkl + l ->
  data_received_loop (S fuel) c =
  match _serialize (abort_msg None) with
  | Ok frame => (c, [TransportWrite frame; TransportClose], Ok Return)
  | Raise x => (c, [], Raise x)
  end.
Proof.
  intros Ex Hmax. rewrite data_received_loop_unfold, data_received_body_unfold, Ex.
  cbn zeta. replace (_my_max_message_size c <? off + tkl + l) with true by lia.
  rewrite abort_return_run.
  by destruct (_serialize (abort_msg None)).
Qed.

Lemma deliver_oversize (stop_at_close : bool) (chunks : list (list byte)) :
  forall (c : TcpConnection) (off tkl l : Z),
    _extract_message_size (_spool c) = Some (off, tkl, l) ->
    _my_max_message_size c < off + tkl + l ->
    dispatched (deliver stop_at_close chunks c).1.2 = [].
Proof.
  induction chunks as [|d rest IH]; intros c off tkl l Ex Hmax; [done|].
  rewrite deliver_cons, data_received_unfold. unfold run.
  rewrite (data_received_loop_oversize _ (extend d c) off tkl l);
    [|by apply extract_message_size_app|done].
  destruct (_serialize (abort_msg None)) as [frame|x]; [|done].
  cbn [forget]. destruct (stop_at_close && _); [done|].
  specialize (IH (extend d c) off tkl l
    (extract_message_size_app _ d _ Ex) Hmax).
  destruct (deliver stop_at_close rest (extend d c)) as [[c2 calls2] r2].
  cbn in *. done.
Qed.

(** C8. When the size measured at the head of the spool exceeds
    [_my_max_message_size] (1 MiB from [__init__] on), the loop calls
    [abort()] at once (abort frame written, transport closed) and
    [data_received] returns with the spool untouched; whatever is delivered
    to the connection from then on, no message is dispatched. *)
Theorem oversize_guard (c : TcpConnection) (off tkl l : Z) :
  _extract_message_size (_spool c) = Some (off, tkl, l) ->
  _my_max_message_size c < off + tkl + l ->
  (forall fuel,
     data_received_loop (S fuel) c =
     match _serialize (abort_msg None) with
     | Ok frame => (c, [TransportWrite frame; TransportClose], Ok Return)
     | Raise x => (c, [], Raise x)
     end) /\
  (forall stop_at_close chunks,
     dispatched (deliver stop_at_close chunks c).1.2 = []) /\
  _my_max_message_size init = 1024 * 1024 /\
  (forall d c0,
     _my_max_message_size (data_received d c0).1.1 = _my_max_message_size c0).
Proof.
  intros Ex Hmax. split; [|split; [|split]].
  - intros fuel. by eapply data_received_loop_oversize.
  - intros stop_at_close chunks. by eapply deliver_oversize.
  - done.
  - intros d c0. destruct (data_received d c0) as [[c1 calls1] r1] eqn:Hd.
    by eapply (preserves_max_data_received (_my_max_message_size c0)).
Qed.

(** ** Further properties of the connection *)

(** The size is read from the header alone: cutting the buffer anywhere
    behind the header leaves it as it is. *)
Lemma extract_message_size_take (data : list byte) (n : nat) (off tkl l : Z) :
  _extract_message_size data = Some (off, tkl, l) ->
  off - 1 <= Z.of_nat n ->
  _extract_message_size (take n data) = Some (off, tkl, l).
Proof.
  intros Ex Hn.
  pose proof (extract_message_size_bounds _ _ _ _ Ex) as (Hoff & _).
  assert (Hsome : is_Some (_extract_message_size (take n data))).
  { destruct data as [|b0 rest]; [discriminate|].
    destruct n as [|n]; [lia|]. cbn [take].
    unfold _extract_message_size in Ex |- *.
    assert (Hlen : len (b0 :: take n rest) = 1 + Z.of_nat (Nat.min n (length rest))).
    { unfold len. cbn [length]. rewrite length_take. lia. }
    assert (Hrest : len (b0 :: rest) = 1 + Z.of_nat (length rest))
      by (unfold len; cbn [length]; lia).
    destruct (13 <=? _); [|eauto].
    destruct (_ =? 13); [|destruct (_ =? 14)];
      (destruct (len (b0 :: rest) <? _) eqn:Hs; [discriminate|]);
      injection Ex as <- _ _;
      (replace (len (b0 :: take n rest) <? _) with false by lia); eauto. }
  destruct Hsome as [r Et].
  rewrite <- (take_drop n data), (extract_message_size_app _ _ _ Et) in Ex.
  congruence.
Qed.

Lemma slice_take {A} (data : list A) (n : nat) (a b : Z) :
  0 <= a -> b <= Z.of_nat n -> (n <= length data)%nat ->
  slice (take n data) a b = slice data a b.
Proof.
  intros Ha Hb Hn. rewrite <- (take_drop n data) at 2.
  symmetry. apply slice_app_l; [done|].
  unfold len. rewrite length_take. lia.
Qed.

(** What [_decode_message] makes of the frame that [data_received] cuts
    off the spool: the header is measured as before, the code byte and the
    token are those of the spool, and the options codec is handed the [l]
    bytes behind the token. *)
Lemma decode_cut_frame (spool : list byte) (off tkl l : Z) :
  _extract_message_size spool = Some (off, tkl, l) ->
  off + tkl + l <= len spool ->
  exists c,
    index spool (off - 1) = Some c /\
    _decode_message (take (Z.to_nat (off + tkl + l)) spool) =
    if 8 <? tkl then Raise UnparsableMessage
    else
      match opt_decode (slice spool (off + tkl) (off + tkl + l)) with
      | Some (opts, pl) =>
        Ok {| code := byte_val c; token := slice spool off (off + tkl);
              opt := opts; payload := pl |}
      | None => Raise UnparsableMessage
      end.
Proof.
  intros Ex Hlen.
  pose proof (extract_message_size_bounds _ _ _ _ Ex) as (Hoff & _ & Htkl & Hl).
  unfold len in Hlen.
  assert (Hc : is_Some (spool !! Z.to_nat (off - 1))).
  { apply lookup_lt_is_Some. lia. }
  destruct Hc as [c Hc]. exists c.
  unfold index at 1. replace (off - 1 <? 0) with false by lia.
  split; [done|].
  unfold _decode_message.
  rewrite (extract_message_size_take _ _ _ _ _ Ex) by lia.
  destruct (8 <? tkl); [done|].
  unfold index. replace (off - 1 <? 0) with false by lia.
  rewrite lookup_take_lt, Hc by lia.
  rewrite slice_take by lia.
  replace (drop (Z.to_nat (off + tkl)) (take (Z.to_nat (off + tkl + l)) spool))
    with (slice spool (off + tkl) (off + tkl + l)); [done|].
  unfold slice. rewrite take_drop_commute. do 2 f_equal. lia.
Qed.

(** X5. A frame whose header declares a token of 9 to 15 bytes, once it is
    complete and within the size limit: the loop logs the warning, calls
    [abort("Failed to parse message")] (abort frame written, transport
    closed) and returns; nothing is dispatched and the frame stays at the
    head of the spool. *)
Theorem overlong_token_rejected (fuel : nat) (c : TcpConnection) (off tkl l : Z) :
  _extract_message_size (_spool c) = Some (off, tkl, l) ->
  8 < tkl ->
  off + tkl + l <= _my_max_message_size c ->
  off + tkl + l <= len (_spool c) ->
  data_received_loop (S fuel) c =
  match _serialize (abort_msg (Some "Failed to parse message"%string)) with
  | Ok frame =>
    (c, [LogWarning "Received unparsable stream, aborting";
         TransportWrite frame; TransportClose], Ok Return)
  | Raise x => (c, [LogWarning "Received unparsable stream, aborting"], Raise x)
  end.
Proof.
  intros Ex Htkl Hmax Hlen.
  destruct (decode_cut_frame _ _ _ _ Ex Hlen) as (b & _ & Hdec).
  replace (8 <? tkl) with true in Hdec by lia.
  rewrite data_received_loop_unfold, data_received_body_unfold, Ex. cbn zeta.
  replace (_my_max_message_size c <? off + tkl + l) with false by lia.
  replace (len (_spool c) <? off + tkl + l) with false by lia.
  rewrite Hdec. unfold bind at 1, emit at 1. rewrite abort_return_run.
  by destruct (_serialize (abort_msg _)).
Qed.

(** X6. A frame that [data_received] cuts off the spool passes the reads
    that [_decode_message] makes itself: its size is measured as on the
    spool, so the unpacking finds a triple, and the code byte lies inside
    the frame. A token length above 8 raises [UnparsableMessage]. Otherwise
    the options decoder is handed exactly the [l] bytes behind the token,
    and whenever it returns options and a payload, the message carries them
    together with the code byte and the [tkl] token bytes of the frame. *)
Theorem decode_message_on_cut_frame (spool : list byte) (off tkl l : Z) :
  _extract_message_size spool = Some (off, tkl, l) ->
  off + tkl + l <= len spool ->
  let frame := take (Z.to_nat (off + tkl + l)) spool in
  _extract_message_size frame = Some (off, tkl, l) /\
  (8 < tkl -> _decode_message frame = Raise UnparsableMessage) /\
  exists c,
    index frame (off - 1) = Some c /\
    len (slice frame off (off + tkl)) = tkl /\
    drop (Z.to_nat (off + tkl)) frame = slice spool (off + tkl) (off + tkl + l) /\
    forall opts pl,
      tkl <= 8 ->
      opt_decode (slice spool (off + tkl) (off + tkl + l)) = Some (opts, pl) ->
      _decode_message frame =
      Ok {| code := byte_val c; token := slice frame off (off + tkl);
            opt := opts; payload := pl |}.
Proof.
  intros Ex Hlen frame.
  pose proof (extract_message_size_bounds _ _ _ _ Ex) as (Hoff & _ & Htkl & Hl).
  destruct (decode_cut_frame _ _ _ _ Ex Hlen) as (c & Hc & Hdec).
  fold frame in Hdec. unfold len in Hlen.
  assert (Htok : slice frame off (off + tkl) = slice spool off (off + tkl))
    by (apply slice_take; lia).
  split; [apply extract_message_size_take; [done|lia]|].
  split.
  { intros Hlong. rewrite Hdec. by replace (8 <? tkl) with true by lia. }
  exists c. split.
  { unfold frame, index in Hc |- *.
    replace (off - 1 <? 0) with false in Hc |- * by lia.
    by rewrite lookup_take_lt by lia. }
  split.
  { rewrite Htok. unfold slice, len. rewrite length_take, length_drop. lia. }
  split.
  { unfold frame, slice. rewrite take_drop_commute. do 2 f_equal. lia. }
  intros opts pl Hshort Hopt. rewrite Hdec, Hopt, Htok.
  by replace (8 <? tkl) with false by lia.
Qed.

(** Every pass that goes on has taken at least two bytes off the spool. *)
Lemma data_received_body_progress c c1 calls :
  data_received_body c = (c1, calls, Ok Continue) ->
  len (_spool c1) + 2 <= len (_spool c).
Proof.
  rewrite data_received_body_unfold.
  destruct (_extract_message_size (_spool c)) as [[[off tkl] l]|] eqn:Ex;
    [|discriminate].
  apply extract_message_size_bounds in Ex as (Hoff & _ & Htkl & Hl).
  cbn zeta. destruct (_ <? _) eqn:Hmax.
  { intros Hr. by apply then_return_run in Hr as [(a & _ & ?)|(e & _ & ?)]. }
  destruct (len (_spool c) <? _) eqn:Hshort; [discriminate|].
  destruct (_decode_message _) as [msg|e].
  - intros Hr.
    rewrite (spool_blind_spool _ _ _ _ _ (spool_blind_after_frame msg) Hr).
    unfold len in *. cbn [_spool with_spool]. rewrite length_drop. lia.
  - destruct e; try discriminate.
    unfold bind at 1, emit at 1. intros Hr.
    destruct ((abort _ None ;; ret Return) c) as [[c' calls'] r'] eqn:Ha.
    injection Hr as <- <- ->.
    by apply then_return_run in Ha as [(a & _ & ?)|(e & _ & ?)].
Qed.

(** X7. The [while True] of [data_received] ends: a pass that goes on to
    the next has removed a frame of at least two bytes from the spool, so
    with more passes allowed than the spool has bytes the loop is left by
    [break], [return] or an exception, and allowing still more passes
    changes neither the calls nor the outcome. *)
Theorem data_received_loop_ends (fuel fuel' : nat) (c : TcpConnection) :
  (length (_spool c) < fuel)%nat ->
  (fuel <= fuel')%nat ->
  (forall c0 c1 calls,
     data_received_body c0 = (c1, calls, Ok Continue) ->
     len (_spool c1) + 2 <= len (_spool c0)) /\
  (data_received_loop fuel c).2 <> Ok Continue /\
  data_received_loop fuel' c = data_received_loop fuel c.
Proof.
  intros Hfuel Hle.
  destruct (data_received_loop fuel c) as [[c1 calls] r] eqn:Hl.
  pose proof (data_received_loop_total _ _ _ _ _ Hfuel Hl) as Hr.
  split; [apply data_received_body_progress|]. split; [done|].
  by eapply data_received_loop_mono.
Qed.

Lemma data_received_body_spool c c1 calls r :
  data_received_body c = (c1, calls, r) ->
  exists n, _spool c1 = drop n (_spool c).
Proof.
  rewrite data_received_body_unfold.
  destruct (_extract_message_size (_spool c)) as [[[off tkl] l]|];
    [|intros [= <- _ _]; by exists 0%nat].
  cbn zeta. destruct (_ <? _).
  { intros Hr. exists 0%nat.
    by rewrite (spool_blind_spool _ _ _ _ _ (spool_blind_abort_return None) Hr). }
  destruct (_ <? _); [intros [= <- _ _]; by exists 0%nat|].
  destruct (_decode_message _) as [msg|e].
  - intros Hr. eexists.
    by rewrite (spool_blind_spool _ _ _ _ _ (spool_blind_after_frame msg) Hr).
  - assert (Hraise : (c, @nil call, @Raise control e) = (c1, calls, r) ->
      exists n, _spool c1 = drop n (_spool c))
      by (intros [= <- _ _]; by exists 0%nat).
    destruct e; try exact Hraise. clear Hraise.
    intros Hr. exists 0%nat.
    by rewrite (spool_blind_spool _ _ _ _ _ (spool_blind_log_abort_return _ _) Hr).
Qed.

Lemma data_received_loop_spool (fuel : nat) c c1 calls r :
  data_received_loop fuel c = (c1, calls, r) ->
  exists n, _spool c1 = drop n (_spool c).
Proof.
  revert c c1 calls r. induction fuel as [|fuel IH]; intros c c1 calls r.
  { intros [= <- _ _]. by exists 0%nat. }
  rewrite data_received_loop_unfold.
  destruct (data_received_body c) as [[c' calls'] r'] eqn:Hb.
  apply data_received_body_spool in Hb as [n Hn].
  destruct r' as [[]|e]; try (intros [= <- _ _]; eauto).
  destruct (data_received_loop fuel c') as [[c2 calls2] r2] eqn:Hl.
  apply IH in Hl as [k Hk]. intros [= <- _ _].
  exists (n + k)%nat. by rewrite Hk, Hn, drop_drop.
Qed.

(** X8. [data_received] only ever takes bytes off the front of the spool:
    after a call the spool is what was there before, followed by the new
    data, less some number of leading bytes. No byte is reordered, changed
    or dropped from the middle, whatever the call ran into. *)
Theorem data_received_spool_suffix (d : list byte) (c : TcpConnection) :
  exists n, _spool (data_received d c).1.1 = drop n (_spool c ++ d).
Proof.
  rewrite data_received_unfold. unfold run.
  destruct (data_received_loop _ _) as [[c1 calls] r] eqn:Hl.
  apply data_received_loop_spool in Hl. exact Hl.
Qed.

(** *** What is dispatched *)

Lemma calls_all_ret {A} Q (a : A) : calls_all Q (ret a).
Proof. intros c c1 calls r [= _ <- _]. constructor. Qed.

Lemma calls_all_raise {A} Q (e : exn) : calls_all Q (@raise A e).
Proof. intros c c1 calls r [= _ <- _]. constructor. Qed.

Lemma calls_all_emit (Q : call -> Prop) (x : call) : Q x -> calls_all Q (emit x).
Proof. intros Hx c c1 calls r [= _ <- _]. by repeat constructor. Qed.

Lemma calls_all_bind {A B} Q (m : M A) (f : A -> M B) :
  calls_all Q m -> (forall a, calls_all Q (f a)) -> calls_all Q (bind m f).
Proof.
  intros Hm Hf c c2 calls r. unfold bind.
  destruct (m c) as [[c1 calls1] [a|e]] eqn:Em.
  - destruct (f a c1) as [[c2' calls2] r'] eqn:Ef. intros [= _ <- _].
    apply Forall_app. split; [by eapply Hm|by eapply Hf].
  - intros [= _ <- _]. by eapply Hm.
Qed.

Lemma calls_all_set_remote_setting Q key v : calls_all Q (set_remote_setting key v).
Proof.
  intros c c1 calls r. unfold set_remote_setting.
  destruct (_remote_settings c); intros [= _ <- _]; constructor.
Qed.

Lemma calls_all_ensure_settings Q : calls_all Q ensure_settings.
Proof.
  intros c c1 calls r. rewrite ensure_settings_run.
  intros [= _ <- _]. constructor.
Qed.

#[local] Hint Resolve calls_all_ret calls_all_raise calls_all_set_remote_setting
  calls_all_ensure_settings : conn.

(** Splits a method into its parts to see that it dispatches nothing. *)
Ltac quiet :=
  repeat first
    [ progress eauto with conn
    | apply calls_all_bind; [|intros ?]
    | apply calls_all_emit; exact I
    | match goal with
      | |- context [if ?b then _ else _] => destruct b
      | |- context [match ?x with _ => _ end] => destruct x
      end ].

Lemma calls_all_send_message msg : calls_all not_dispatch (_send_message msg).
Proof. unfold _send_message. destruct (_serialize msg); quiet. Qed.

#[local] Hint Resolve calls_all_send_message : conn.

Lemma calls_all_abort e o : calls_all not_dispatch (abort e o).
Proof. unfold abort. destruct o; quiet. Qed.

#[local] Hint Resolve calls_all_abort : conn.

Lemma calls_all_csm_options opts : calls_all not_dispatch (csm_options opts).
Proof. induction opts as [|o opts IH]; cbn [csm_options]; quiet. Qed.

Lemma calls_all_other_options opts : calls_all not_dispatch (other_options opts).
Proof. induction opts as [|o opts IH]; cbn [other_options]; quiet. Qed.

#[local] Hint Resolve calls_all_csm_options calls_all_other_options : conn.

Lemma calls_all_process_signaling msg :
  calls_all not_dispatch (_process_signaling msg).
Proof. unfold _process_signaling. quiet. Qed.

#[local] Hint Resolve calls_all_process_signaling : conn.

Lemma calls_all_weaken {A} (Q Q' : call -> Prop) (m : M A) :
  (forall x, Q x -> Q' x) -> calls_all Q m -> calls_all Q' m.
Proof. intros HQ Hm c c1 calls r Hr. eapply Forall_impl; [by eapply Hm|done]. Qed.

Lemma not_dispatch_ok (x : call) : not_dispatch x -> dispatch_ok x.
Proof. by destruct x. Qed.

Lemma calls_all_abort_return e :
  calls_all dispatch_ok (abort e None ;; ret Return).
Proof. apply (calls_all_weaken not_dispatch); [apply not_dispatch_ok|quiet]. Qed.

Lemma calls_all_after_frame msg :
  len (token msg) <= 8 -> 0 <= code msg < 256 ->
  calls_all dispatch_ok (after_frame msg).
Proof.
  intros Htok Hcode. unfold after_frame.
  destruct (is_signalling (code msg)) eqn:Hsig.
  { apply (calls_all_weaken not_dispatch); [apply not_dispatch_ok|quiet]. }
  intros c c1 calls r. rewrite bind_get_run.
  destruct (_remote_settings c).
  - unfold bind, emit, ret. intros [= _ <- _].
    constructor; [by cbn|constructor].
  - apply calls_all_abort_return.
Qed.

Lemma calls_all_body : calls_all dispatch_ok data_received_body.
Proof.
  intros c c1 calls r. rewrite data_received_body_unfold.
  destruct (_extract_message_size (_spool c)) as [[[off tkl] l]|] eqn:Ex;
    [|intros [= _ <- _]; constructor].
  cbn zeta. destruct (_ <? _); [apply calls_all_abort_return|].
  destruct (len (_spool c) <? _) eqn:Hlen; [intros [= _ <- _]; constructor|].
  pose proof (cut_frame := decode_cut_frame _ _ _ _ Ex ltac:(lia)).
  destruct cut_frame as (b & _ & Hdec). rewrite Hdec.
  pose proof (extract_message_size_bounds _ _ _ _ Ex) as (_ & _ & Htkl & _).
  assert (Hfail : calls_all dispatch_ok
    (emit (LogWarning "Received unparsable stream, aborting") ;;
     abort (Some "Failed to parse message"%string) None ;; ret Return)).
  { apply (calls_all_weaken not_dispatch); [apply not_dispatch_ok|quiet]. }
  destruct (8 <? tkl) eqn:H8; [apply Hfail|].
  destruct (opt_decode _) as [[opts pl]|]; [|apply Hfail].
  apply calls_all_after_frame; cbn [token code].
  - pose proof (len_slice_le (_spool c) off (off + tkl)). lia.
  - apply byte_val_range.
Qed.

Lemma calls_all_loop (fuel : nat) : calls_all dispatch_ok (data_received_loop fuel).
Proof.
  induction fuel as [|fuel IH]; cbn [data_received_loop]; [quiet|].
  apply calls_all_bind; [apply calls_all_body|]. intros []; quiet.
Qed.

Lemma calls_all_data_received d : calls_all dispatch_ok (data_received d).
Proof.
  intros c c1 calls r. rewrite data_received_unfold. unfold run.
  destruct (data_received_loop _ _) as [[c2 calls2] r2] eqn:Hl.
  intros [= _ <- _]. by eapply calls_all_loop.
Qed.

Lemma dispatched_ok (calls : list call) :
  Forall dispatch_ok calls ->
  Forall (fun m => is_signalling (code m) = false /\ len (token m) <= 8 /\
                   0 <= code m < 256) (dispatched calls).
Proof.
  induction 1 as [|x calls Hx _ IH]; [constructor|].
  destruct x; try exact IH. cbn. by constructor.
Qed.

(** X9. Whatever bytes arrive, every message [data_received] hands to
    [_dispatch_incoming] is an application message: its code is not a
    signalling code and is a byte, and its token has at most 8 bytes.
    Signalling messages and frames with longer tokens never reach the
    token manager. *)
Theorem dispatched_messages_wellformed (d : list byte) (c : TcpConnection) :
  Forall (fun m => is_signalling (code m) = false /\ len (token m) <= 8 /\
                   0 <= code m < 256)
         (dispatched (data_received d c).1.2).
Proof.
  destruct (data_received d c) as [[c1 calls] r] eqn:Hd.
  apply dispatched_ok. by eapply calls_all_data_received.
Qed.

Lemma dispatched_app (a b : list call) :
  dispatched (a ++ b) = dispatched a ++ dispatched b.
Proof. unfold dispatched. apply omap_app. Qed.

Lemma dispatched_none (calls : list call) :
  Forall not_dispatch calls -> dispatched calls = [].
Proof. induction 1 as [|x calls Hx _ IH]; [done|]. by destruct x. Qed.

Lemma calls_all_run_none {A} (m : M A) c c1 calls r :
  calls_all not_dispatch m -> m c = (c1, calls, r) -> dispatched calls = [].
Proof. intros Hm Hr. apply dispatched_none. by eapply Hm. Qed.

Lemma quiet_abort_return e : calls_all not_dispatch (abort e None ;; ret Return).
Proof. quiet. Qed.

Lemma quiet_log_abort_return text e :
  calls_all not_dispatch (emit (LogWarning text) ;; abort e None ;; ret Return).
Proof. quiet. Qed.

Lemma quiet_signaling_continue msg :
  calls_all not_dispatch (_process_signaling msg ;; ret Continue).
Proof. quiet. Qed.

(** A pass dispatches only on a connection whose remote settings are
    known. *)
Lemma data_received_body_dispatch_known c c1 calls r :
  data_received_body c = (c1, calls, r) ->
  dispatched calls <> [] -> settings_known c1.
Proof.
  rewrite data_received_body_unfold.
  destruct (_extract_message_size (_spool c)) as [[[off tkl] l]|];
    [|by intros [= _ <- _]].
  cbn zeta. destruct (_ <? _).
  { intros Hr. by rewrite (calls_all_run_none _ _ _ _ _ (quiet_abort_return _) Hr). }
  destruct (_ <? _); [by intros [= _ <- _]|].
  destruct (_decode_message _) as [msg|e].
  - unfold after_frame. destruct (is_signalling (code msg)).
    { intros Hr.
      by rewrite (calls_all_run_none _ _ _ _ _ (quiet_signaling_continue _) Hr). }
    rewrite bind_get_run. cbn [_remote_settings with_spool].
    destruct (_remote_settings c) as [s|] eqn:Hs.
    + unfold bind, emit, ret. intros [= <- _ _] _.
      unfold settings_known. cbn. rewrite Hs. eauto.
    + intros Hr.
      by rewrite (calls_all_run_none _ _ _ _ _ (quiet_abort_return _) Hr).
  - assert (Hraise : (c, @nil call, @Raise control e) = (c1, calls, r) ->
      dispatched calls <> [] -> settings_known c1) by (by intros [= _ <- _]).
    destruct e; try exact Hraise. clear Hraise.
    intros Hr.
    by rewrite (calls_all_run_none _ _ _ _ _ (quiet_log_abort_return _ _) Hr).
Qed.

Lemma data_received_loop_dispatch_known (fuel : nat) c c1 calls r :
  data_received_loop fuel c = (c1, calls, r) ->
  dispatched calls <> [] -> settings_known c1.
Proof.
  revert c c1 calls r. induction fuel as [|fuel IH]; intros c c1 calls r.
  { by intros [= _ <- _]. }
  rewrite data_received_loop_unfold.
  destruct (data_received_body c) as [[c' calls'] r'] eqn:Hb.
  pose proof (data_received_body_dispatch_known _ _ _ _ Hb) as Hk.
  destruct r' as [[]|e]; try (by intros [= <- <- _]).
  destruct (data_received_loop fuel c') as [[c2 calls2] r2] eqn:Hl.
  intros [= <- <- _]. rewrite dispatched_app.
  destruct (dispatched calls') as [|m ms] eqn:Hd.
  - intros Hne. by eapply IH.
  - intros _.
    eapply (preserves_loop settings_known fuel preserves_known_body); [done|].
    by apply Hk.
Qed.

(** X10. No message is dispatched before the remote settings are known:
    if they are still unknown when a call of [data_received] is over, that
    call has dispatched nothing, whatever it received. *)
Theorem no_dispatch_before_csm (d : list byte) (c : TcpConnection) :
  _remote_settings (data_received d c).1.1 = None ->
  dispatched (data_received d c).1.2 = [].
Proof.
  rewrite data_received_unfold. unfold run.
  destruct (data_received_loop _ _) as [[c1 calls] r] eqn:Hl. cbn.
  intros Hnone. destruct (dispatched calls) as [|m ms] eqn:Hd; [done|].
  pose proof (data_received_loop_dispatch_known _ _ _ _ _ Hl) as Hk.
  rewrite Hd in Hk. destruct (Hk ltac:(done)) as [s Hs]. congruence.
Qed.

(** *** Capability announcements *)

Lemma csm_options_run (opts : list Opt) :
  forall c s,
    _remote_settings c = Some s ->
    Forall csm_option_ok opts ->
    csm_options opts c =
    ({| _spool := _spool c;
        _my_max_message_size := _my_max_message_size c;
        _remote_settings := Some (foldl csm_setting s opts) |}, [], Ok tt).
Proof.
  induction opts as [|o opts IH]; intros c s Hs Hok.
  { destruct c. cbn in *. by rewrite Hs. }
  apply Forall_cons in Hok as [Ho Hok]. cbn [csm_options foldl].
  unfold bind at 1. unfold csm_setting at 2.
  destruct (number o =? 2) eqn:E2.
  { unfold set_remote_setting at 1. rewrite Hs.
    by rewrite (IH _ (<["max-message-size" := SInt (from_bytes (value o))]> s)). }
  destruct (number o =? 4) eqn:E4.
  { unfold set_remote_setting at 1. rewrite Hs.
    by rewrite (IH _ (<["block-wise-transfer" := STrue]> s)). }
  destruct Ho as [Ho|[Ho|Ho]]; [lia|lia|].
  rewrite Ho. unfold ret at 1. by rewrite (IH _ _ Hs Hok).
Qed.

Lemma process_signaling_csm_run (msg : Message) (c : TcpConnection) :
  code msg = CSM ->
  Forall csm_option_ok (opt msg) ->
  _process_signaling msg c =
  ({| _spool := _spool c;
      _my_max_message_size := _my_max_message_size c;
      _remote_settings :=
        Some (foldl csm_setting (default ∅ (_remote_settings c)) (opt msg)) |},
   [], Ok tt).
Proof.
  intros Hcode Hok. unfold _process_signaling. rewrite Hcode, Z.eqb_refl.
  unfold bind. rewrite ensure_settings_run.
  destruct (_remote_settings c) as [s|] eqn:Hs.
  - by rewrite (csm_options_run _ _ s Hs Hok).
  - by rewrite (csm_options_run (opt msg) _ ∅).
Qed.

(** X11. A CSM whose options are the two known ones and elective ones:
    [_process_signaling] makes no call and raises nothing; the remote
    settings afterwards are the ones before (none: the empty dict) with
    each option applied in order, option 2 storing its integer under
    ['max-message-size'], option 4 storing [True] under
    ['block-wise-transfer'], the elective ones changing nothing. *)
Theorem csm_settings_applied (msg : Message) (c : TcpConnection) :
  code msg = CSM ->
  Forall csm_option_ok (opt msg) ->
  _process_signaling msg c =
  ({| _spool := _spool c;
      _my_max_message_size := _my_max_message_size c;
      _remote_settings :=
        Some (foldl csm_setting (default ∅ (_remote_settings c)) (opt msg)) |},
   [], Ok tt).
Proof. apply process_signaling_csm_run. Qed.

Lemma preserves_has_set_remote_setting key k v :
  preserves (has_setting key) (set_remote_setting k v).
Proof.
  intros c c1 calls r. unfold set_remote_setting, has_setting.
  destruct (_remote_settings c) as [s|] eqn:Hs; intros [= <- _ _]; cbn;
    [|by rewrite Hs].
  intros Hk. apply lookup_insert_is_Some'. by right.
Qed.

Lemma preserves_has_ensure_settings key : preserves (has_setting key) ensure_settings.
Proof.
  intros c c1 calls r. rewrite ensure_settings_run. unfold has_setting.
  destruct (_remote_settings c) as [s|] eqn:Hs; intros [= <- _ _]; [|done].
  by rewrite Hs.
Qed.

Lemma preserves_has_set_spool key s : preserves (has_setting key) (set_spool s).
Proof. by intros c c1 calls r [= <- _ _]. Qed.

#[local] Hint Resolve preserves_has_set_remote_setting preserves_has_ensure_settings
  preserves_has_set_spool : conn.

Lemma preserves_has_csm_options key opts : preserves (has_setting key) (csm_options opts).
Proof. induction opts as [|o opts IH]; cbn [csm_options]; frame. Qed.

#[local] Hint Resolve preserves_has_csm_options : conn.

Lemma preserves_has_process_signaling key msg :
  preserves (has_setting key) (_process_signaling msg).
Proof. unfold _process_signaling. frame. Qed.

#[local] Hint Resolve preserves_has_process_signaling : conn.

Lemma preserves_has_body key : preserves (has_setting key) data_received_body.
Proof. unfold data_received_body. frame. Qed.

Lemma preserves_has_data_received key d : preserves (has_setting key) (data_received d).
Proof.
  unfold data_received.
  apply preserves_bind; [frame|intros c0].
  apply preserves_bind; [frame|intros _].
  apply preserves_bind; [frame|intros c2].
  apply preserves_bind; [|frame].
  apply preserves_loop, preserves_has_body.
Qed.

(** X12. A remote setting is never forgotten: once the remote settings
    hold a value under a key, they hold one under that key after every
    later call of [data_received], whether it processed further CSMs,
    aborted or raised. *)
Theorem remote_setting_kept (key : string) (d : list byte) (c : TcpConnection) :
  has_setting key c -> has_setting key (data_received d c).1.1.
Proof.
  intros Hk. destruct (data_received d c) as [[c1 calls] r] eqn:Hd.
  by eapply preserves_has_data_received.
Qed.

(** *** Frames sent and received *)

Lemma abort_msg_code e : code (abort_msg e) = ABORT.
Proof. by destruct e. Qed.

Lemma abort_msg_token e : token (abort_msg e) = [].
Proof. by destruct e. Qed.

(** X13. [abort] without a bad option, whenever the code [ABORT] is a byte
    and the body of the abort message (options and diagnostic) is shorter
    than 65535 bytes: one frame is written and the transport is closed,
    nothing is raised and the connection's fields are untouched; the frame
    measures as its own length with an empty token, and decodes to the code
    [ABORT] with the body that was built. *)
Theorem abort_sends_and_closes (e : option string) (c : TcpConnection) :
  0 <= ABORT < 256 ->
  len (body_of (abort_msg e)) < 65535 ->
  exists frame off,
    abort e None c = (c, [TransportWrite frame; TransportClose], Ok tt) /\
    _extract_message_size frame = Some (off, 0, len (body_of (abort_msg e))) /\
    len frame = off + len (body_of (abort_msg e)) /\
    _decode_message frame =
      match opt_decode (body_of (abort_msg e)) with
      | Some (opts, pl) =>
        Ok {| code := ABORT; token := []; opt := opts; payload := pl |}
      | None => Raise UnparsableMessage
      end.
Proof.
  intros Hcode Hbody.
  destruct (serialize_decode_roundtrip (abort_msg e)) as (frame & off & Hs & Hx & Hl & Hd).
  { rewrite abort_msg_token. unfold len. simpl. lia. }
  { by rewrite abort_msg_code. }
  { by left. }
  rewrite abort_msg_code, abort_msg_token in *.
  change (len []) with 0 in *.
  exists frame, off. rewrite abort_run, Hs.
  repeat split; [done| |done]. lia.
Qed.

(** X14. Delivery in any chunks: when the delivery of a byte sequence as
    one chunk returns without closing the transport, its delivery cut into
    any chunks (the first may be empty, as may any other) makes the same
    calls in the same order and leaves the connection in the same state. *)
Theorem any_chunking (stop_at_close : bool) (chunks : list (list byte))
  (d : list byte) (c c' : TcpConnection) (calls : list call) :
  data_received (d ++ concat chunks) c = (c', calls, Ok tt) ->
  existsb closes calls = false ->
  deliver stop_at_close (d :: chunks) c = (c', calls, Ok tt).
Proof. apply deliver_concat. Qed.

(** What [_serialize] asks of a message. *)
Lemma serialize_Ok_inv (msg : Message) (frame : list byte) :
  _serialize msg = Ok frame ->
  len (token msg) <= 8 /\ 0 <= code msg < 256 /\
  (len (body_of msg) < 65535 \/ 65805 <= len (body_of msg) < 65805 + 2 ^ 32).
Proof.
  intros Hs. unfold _serialize in Hs.
  destruct (_encode_length (len (body_of msg))) as [[nib ext]|e] eqn:He;
    [|discriminate].
  apply encode_length_Ok_range in He; [|apply len_nonneg].
  destruct (8 <? len (token msg)) eqn:Htok; [discriminate|].
  destruct (mk_byte (Z.lor _ _)) as [b0|]; [|discriminate].
  destruct (mk_byte (code msg)) as [b|] eqn:Hc; [|discriminate].
  apply mk_byte_val in Hc. pose proof (byte_val_range b). lia.
Qed.

(** A serialized message that the options codec reads back, alone in the
    spool of a connection it fits. *)
Lemma serialized_head_frame (msg : Message) (frame : list byte) (c : TcpConnection) :
  _serialize msg = Ok frame ->
  opt_decode (body_of msg) = Some (opt msg, payload msg) ->
  len frame <= _my_max_message_size c ->
  head_frame (with_spool frame c) msg [].
Proof.
  intros Hs Hcodec Hfit.
  destruct (serialize_Ok_inv _ _ Hs) as (Htok & Hcode & Hbody).
  destruct (serialize_decode_roundtrip msg Htok Hcode Hbody)
    as (frame' & off & Hs' & Hx & Hl & Hd).
  rewrite Hs in Hs'. injection Hs' as <-.
  exists off, (len (token msg)), (len (body_of msg)).
  cbn [_spool _my_max_message_size with_spool]. rewrite <- Hl.
  replace (Z.to_nat (len frame)) with (length frame) by (unfold len; lia).
  rewrite take_ge, drop_ge by done.
  repeat split; try done; try lia.
  rewrite Hd, Hcodec. by destruct msg.
Qed.

(** A call of [data_received] that brings exactly one frame to a connection
    with an empty spool. *)
Lemma data_received_one_frame (frame : list byte) (msg : Message)
  (c c1 : TcpConnection) (calls : list call) :
  _spool c = [] ->
  head_frame (with_spool frame c) msg [] ->
  after_frame msg c = (c1, calls, Ok Continue) ->
  data_received frame c = (c1, calls, Ok tt).
Proof.
  intros Hempty Hhead Hafter.
  assert (Hc : with_spool [] c = c) by (rewrite <- Hempty; apply with_spool_spool).
  rewrite data_received_unfold. unfold run, extend. rewrite Hempty. cbn [app].
  assert (Hloop : data_received_loop 2 (with_spool frame c) = (c1, calls, Ok Break)).
  { rewrite data_received_loop_unfold, (data_received_body_head_frame _ _ _ Hhead).
    change (with_spool [] (with_spool frame c)) with (with_spool [] c).
    rewrite Hc, Hafter.
    rewrite data_received_loop_unfold, data_received_body_unfold.
    rewrite (spool_blind_spool _ _ _ _ _ (spool_blind_after_frame msg) Hafter), Hempty.
    cbn. by rewrite app_nil_r. }
  rewrite (data_received_loop_fuel _ (S (length frame)) _ _ _ _ Hloop);
    [done|done|cbn; lia].
Qed.

(** X15. Sent and received: a non-signalling message that [_serialize]
    accepts and whose body the options codec reads back, delivered as one
    chunk to a connection with an empty spool, known remote settings and a
    size limit the frame respects, is dispatched as the very message that
    was serialized; nothing else is called and the spool is empty again. *)
Theorem received_as_sent (msg : Message) (frame : list byte) (c : TcpConnection) :
  _serialize msg = Ok frame ->
  opt_decode (body_of msg) = Some (opt msg, payload msg) ->
  is_signalling (code msg) = false ->
  _spool c = [] ->
  settings_known c ->
  len frame <= _my_max_message_size c ->
  data_received frame c = (c, [DispatchIncoming msg], Ok tt).
Proof.
  intros Hs Hcodec Hsig Hempty [s Hk] Hfit.
  apply (data_received_one_frame frame msg); [done| |].
  - by apply serialized_head_frame.
  - unfold after_frame. rewrite Hsig, bind_get_run, Hk. reflexivity.
Qed.

End ConnectionFacts.

Section HandshakeFacts.
Context `{Collaborators}.
Variable uint_value : Z -> list byte.

(** X16. The capability announcement understood: the frame that
    [connection_made] writes on one connection, delivered to a peer
    connection with an empty spool that it fits, makes the peer store the
    sender's maximum message size under ['max-message-size'] and [True]
    under ['block-wise-transfer'], without any call and without an abort,
    provided the options codec reads the two options back, the CSM code is
    a signalling code and the integer option value reads back as the
    number. *)
Theorem initial_csm_understood (local peer : TcpConnection) (frame : list byte) :
  connection_made uint_value local = (local, [TransportWrite frame], Ok tt) ->
  opt_decode (body_of (my_csm uint_value local))
  = Some (opt (my_csm uint_value local), []) ->
  is_signalling CSM = true ->
  from_bytes (uint_value (_my_max_message_size local)) = _my_max_message_size local ->
  _spool peer = [] ->
  len frame <= _my_max_message_size peer ->
  data_received frame peer =
  ({| _spool := [];
      _my_max_message_size := _my_max_message_size peer;
      _remote_settings :=
        Some (<["block-wise-transfer" := STrue]>
                (<["max-message-size" := SInt (_my_max_message_size local)]>
                   (default ∅ (_remote_settings peer)))) |},
   [], Ok tt).
Proof.
  intros Hsent Hcodec Hsig Hint Hempty Hfit.
  assert (Hs : _serialize (my_csm uint_value local) = Ok frame).
  { unfold connection_made, _send_initial_csm in Hsent.
    rewrite bind_get_run in Hsent. unfold _send_message in Hsent.
    destruct (_serialize (my_csm uint_value local)); [|discriminate].
    by injection Hsent as ->. }
  apply (data_received_one_frame frame (my_csm uint_value local));
    [done|by apply serialized_head_frame|].
  unfold after_frame. cbn [code my_csm]. rewrite Hsig.
  unfold bind. rewrite process_signaling_csm_run.
  - cbn [opt my_csm foldl]. unfold csm_setting. cbn [number value Z.eqb Pos.eqb].
    by rewrite Hint, Hempty.
  - done.
  - cbn [opt my_csm].
    apply Forall_cons; split; [by left|].
    apply Forall_cons; split; [right; by left|constructor].
Qed.

End HandshakeFacts.

(** ** The client pool *)

(** C9. An outgoing message without [unresolved_remote] and without a
    [uri_host] option: [_spawn_protocol] raises [ValueError] before
    anything is awaited, so [create_connection] is not called and the pool
    is as before. *)
Theorem spawn_protocol_no_host {Protocol : Type} (COAP_PORT : Z)
  (hostname : string -> option string) (port : string -> result (option Z))
  (create_connection : option string -> Z -> result Protocol)
  (pool : gmap (option string * Z) Protocol) (p : option Z) :
  _spawn_protocol COAP_PORT hostname port create_connection pool
    {| unresolved_remote := None; uri_host := None; uri_port := p |}
  = (pool, [], Raise ValueError).
Proof. reflexivity. Qed.

(** With a host the pool is consulted first, and only a missing entry makes
    a connection, filed under the same [(host, port)]. *)
Lemma spawn_protocol_host {Protocol : Type} (COAP_PORT : Z)
  (hostname : string -> option string) (port : string -> result (option Z))
  (create_connection : option string -> Z -> result Protocol)
  (pool : gmap (option string * Z) Protocol) (h : string) (p : option Z) :
  let key := (Some h, or_default p COAP_PORT) in
  _spawn_protocol COAP_PORT hostname port create_connection pool
    {| unresolved_remote := None; uri_host := Some h; uri_port := p |}
  = match pool !! key with
    | Some protocol => (pool, [], Ok protocol)
    | None =>
      match create_connection (Some h) (or_default p COAP_PORT) with
      | Ok protocol => (<[key := protocol]> pool, [key], Ok protocol)
      | Raise e => (pool, [key], Raise e)
      end
    end.
Proof. reflexivity. Qed.

(** A message sent twice to the same destination finds the connection of
    the first time. *)
Lemma spawn_protocol_again {Protocol : Type} (COAP_PORT : Z)
  (hostname : string -> option string) (port : string -> result (option Z))
  (create_connection : option string -> Z -> result Protocol)
  (pool pool' : gmap (option string * Z) Protocol) (message : Outgoing)
  (created : list (option string * Z)) (p : Protocol) :
  _spawn_protocol COAP_PORT hostname port create_connection pool message
  = (pool', created, Ok p) ->
  _spawn_protocol COAP_PORT hostname port create_connection pool' message
  = (pool', [], Ok p).
Proof.
  unfold _spawn_protocol.
  destruct (match unresolved_remote message with
            | Some _ => _ | None => _ end) as [key|e]; [|discriminate].
  destruct (pool !! key) as [q|] eqn:Hq.
  - intros [= <- _ <-]. by rewrite Hq.
  - destruct (create_connection key.1 key.2) as [q|e]; [|discriminate].
    intros [= <- _ <-]. by rewrite lookup_insert_eq.
Qed.

(** X17. Pool reuse: when [_spawn_protocol] has returned a connection for
    a message, calling it again for the same message on the pool it left
    returns the same connection, awaits no new one and leaves the pool as
    it is. *)
Theorem spawn_protocol_reuse {Protocol : Type} (COAP_PORT : Z)
  (hostname : string -> option string) (port : string -> result (option Z))
  (create_connection : option string -> Z -> result Protocol)
  (pool pool' : gmap (option string * Z) Protocol) (message : Outgoing)
  (created : list (option string * Z)) (p : Protocol) :
  _spawn_protocol COAP_PORT hostname port create_connection pool message
  = (pool', created, Ok p) ->
  _spawn_protocol COAP_PORT hostname port create_connection pool' message
  = (pool', [], Ok p).
Proof. apply spawn_protocol_again. Qed.

Lemma spawn_protocol_reuse_witness :
  _spawn_protocol 5683 (fun _ => None) (fun _ => Ok None) (fun _ _ => Ok 7%nat)
    (<[(Some "example.org"%string, 5683) := 7%nat]> ∅)
    {| unresolved_remote := None; uri_host := Some "example.org"%string;
       uri_port := None |}
  = (<[(Some "example.org"%string, 5683) := 7%nat]> ∅, [], Ok 7%nat).
Proof.
  apply (spawn_protocol_reuse 5683 (fun _ => None) (fun _ => Ok None)
           (fun _ _ => Ok 7%nat) ∅ _ _ [(Some "example.org"%string, 5683)]).
  reflexivity.
Defined.

(** X18. What [_spawn_protocol] does to the pool: every entry that was
    there is still there with the same connection; at most one connection
    is awaited, and only for a key the pool did not hold; when the call
    raises (no host, a bad port, a failed connection) the pool is as
    before. *)
Theorem spawn_protocol_pool {Protocol : Type} (COAP_PORT : Z)
  (hostname : string -> option string) (port : string -> result (option Z))
  (create_connection : option string -> Z -> result Protocol)
  (pool : gmap (option string * Z) Protocol) (message : Outgoing) :
  let out :=
    _spawn_protocol COAP_PORT hostname port create_connection pool message in
  (forall k q, pool !! k = Some q -> out.1.1 !! k = Some q) /\
  (out.1.2 = [] \/ exists key, out.1.2 = [key] /\ pool !! key = None) /\
  (forall e, out.2 = Raise e -> out.1.1 = pool) /\
  (forall p, out.2 = Ok p -> exists key, out.1.1 !! key = Some p /\
                                       (out.1.2 = [] -> pool !! key = Some p)).
Proof.
  cbv zeta. unfold _spawn_protocol.
  destruct (match unresolved_remote message with
            | Some _ => _ | None => _ end) as [key|e].
  2: { cbn. split; [done|]. split; [by left|]. split; [done|]. discriminate. }
  destruct (pool !! key) as [q|] eqn:Hq.
  { cbn. split; [done|]. split; [by left|]. split; [discriminate|].
    intros p [= <-]. eauto. }
  destruct (create_connection key.1 key.2) as [q|e]; cbn.
  - split; [|split; [|split]].
    + intros k q' Hk. rewrite lookup_insert_ne; [done|]. congruence.
    + right. eauto.
    + discriminate.
    + intros p [= <-]. exists key. split; [apply lookup_insert_eq|done].
  - split; [done|]. split; [right; eauto|]. split; [done|]. discriminate.
Qed.

Section PoolFacts.
Context {Protocol : Type} `{Countable Protocol}.

Lemma lookup_foldr_delete (m : gmap (option string * Z) Protocol)
  (ks : list (option string * Z)) (k : option string * Z) :
  foldr delete m ks !! k = if decide (k ∈ ks) then None else m !! k.
Proof.
  induction ks as [|k' ks IH]; cbn [foldr].
  { by rewrite decide_False by apply not_elem_of_nil. }
  destruct (decide (k' = k)) as [->|Hne].
  - rewrite lookup_delete_eq. rewrite decide_True; [done|]. apply elem_of_cons. by left.
  - rewrite lookup_delete_ne by done. rewrite IH.
    destruct (decide (k ∈ ks)) as [Hin|Hnin].
    + rewrite decide_True; [done|]. apply elem_of_cons. by right.
    + rewrite decide_False; [done|]. rewrite elem_of_cons.
      intros [Heq|Hin]; [by apply Hne|by apply Hnin].
Qed.

Lemma elem_of_client_evict_keys (pool : gmap (option string * Z) Protocol)
  (connection : Protocol) (k : option string * Z) :
  k ∈ client_evict_keys pool connection <-> pool !! k = Some connection.
Proof.
  unfold client_evict_keys. rewrite list_elem_of_omap. split.
  - intros ([k' p] & Hin & Hf). apply elem_of_map_to_list in Hin.
    cbn in Hf. destruct (decide (p = connection)) as [->|]; [|discriminate].
    by injection Hf as <-.
  - intros Hk. exists (k, connection). split; [by apply elem_of_map_to_list|].
    cbn. by rewrite decide_True.
Qed.

(** The pool after [_evict_from_pool], key by key. *)
Lemma client_evict_lookup (pool : gmap (option string * Z) Protocol)
  (connection : Protocol) (k : option string * Z) :
  client_evict_from_pool pool connection !! k =
  match pool !! k with
  | Some p => if decide (p = connection) then None else Some p
  | None => None
  end.
Proof.
  unfold client_evict_from_pool. rewrite lookup_foldr_delete.
  destruct (decide (k ∈ client_evict_keys pool connection)) as [Hin|Hnin].
  - apply elem_of_client_evict_keys in Hin. rewrite Hin. by rewrite decide_True.
  - rewrite elem_of_client_evict_keys in Hnin.
    destruct (pool !! k) as [p|]; [|done].
    rewrite decide_False; [done|]. congruence.
Qed.

(** X19. A connection lost on the client side ([connection_lost] calling
    [_dispatch_error]): afterwards no key of the pool leads to the
    connection, every other entry is as before, and the token manager gets
    exactly one [dispatch_error], with the [errno] of an [OSError] and with
    0 for anything else; losing the same connection again changes nothing
    in the pool. *)
Theorem client_connection_lost (pool : gmap (option string * Z) Protocol)
  (connection : Protocol) (exc : lost_exc) :
  let out := client_dispatch_error pool connection exc in
  (forall k, out.1 !! k <> Some connection) /\
  (forall k p, p <> connection -> (out.1 !! k = Some p <-> pool !! k = Some p)) /\
  out.2 = match exc with
          | OSError errno => [DispatchError errno connection]
          | OtherExc => [LogInfo; DispatchError (Some 0) connection]
          end /\
  (client_dispatch_error out.1 connection exc).1 = out.1.
Proof.
  cbn. split; [|split; [|split]].
  - intros k. rewrite client_evict_lookup.
    destruct (pool !! k) as [p|]; [|done].
    destruct (decide (p = connection)); congruence.
  - intros k p Hp. rewrite client_evict_lookup.
    destruct (pool !! k) as [q|]; [|done].
    destruct (decide (q = connection)) as [->|]; [|done].
    split; [done|]. congruence.
  - by destruct exc.
  - apply map_eq. intros k. rewrite !client_evict_lookup.
    destruct (pool !! k) as [p|]; [|done].
    destruct (decide (p = connection)) as [|Hne]; [done|].
    by rewrite decide_False.
Qed.

(** X20. Filing and evicting: a connection that no key of the pool leads
    to, filed under a free key and then evicted, leaves the pool exactly as
    it was before it was filed. *)
Theorem client_evict_inserted (pool : gmap (option string * Z) Protocol)
  (key : option string * Z) (connection : Protocol) :
  pool !! key = None ->
  (forall k, pool !! k <> Some connection) ->
  client_evict_from_pool (<[key := connection]> pool) connection = pool.
Proof.
  intros Hfree Hfresh. apply map_eq. intros k. rewrite client_evict_lookup.
  destruct (decide (key = k)) as [<-|Hne].
  - rewrite lookup_insert_eq, decide_True by done. by rewrite Hfree.
  - rewrite lookup_insert_ne by done.
    destruct (pool !! k) as [p|] eqn:Hk; [|done].
    rewrite decide_False; [done|]. intros ->. by apply (Hfresh k).
Qed.

(** X21. A connection lost on the server side: when the connection is in
    the pool it is removed, the others stay, and the token manager gets
    exactly one [dispatch_error] (the [errno] of an [OSError], else 0);
    when it is not in the pool, as after it has been lost once already,
    [set.remove] raises [KeyError], the pool is unchanged and the token
    manager is not told. *)
Theorem server_connection_lost (pool : gset Protocol) (connection : Protocol)
  (exc : lost_exc) :
  (connection ∈ pool ->
   server_dispatch_error pool connection exc =
   (pool ∖ {[connection]},
    match exc with
    | OSError errno => [DispatchError errno connection]
    | OtherExc => [LogInfo; DispatchError (Some 0) connection]
    end, true) /\
   forall exc',
     server_dispatch_error (pool ∖ {[connection]}) connection exc'
     = (pool ∖ {[connection]}, [], false)) /\
  (connection ∉ pool ->
   server_dispatch_error pool connection exc = (pool, [], false)).
Proof.
  unfold server_dispatch_error, server_evict_from_pool. split.
  - intros Hin. rewrite decide_True by done. split; [by destruct exc|].
    intros exc'. rewrite decide_False; [done|].
    rewrite elem_of_difference, elem_of_singleton. by intros [_ Hn].
  - intros Hnin. by rewrite decide_False.
Qed.

End PoolFacts.

(** ** Runs on the CoAP-over-TCP collaborators *)

Section Runs.
#[local] Existing Instance coap_tcp.

(** The frames of the messages used below. *)
Lemma serialized_frames :
  _serialize get_msg = Ok [x00; x01] /\
  _serialize csm_msg = Ok [x00; xe1] /\
  _serialize unknown_msg = Ok [x00; xe6] /\
  _serialize ping_msg = Ok [x01; xe2; x2a] /\
  _serialize (new_message PONG [x2a]) = Ok [x01; xe3; x2a] /\
  _serialize (abort_msg (Some "No CSM received"%string))
  = Ok ([xd0; x03; xe5; xff] ++ list_byte_of_string "No CSM received") /\
  _serialize (abort_msg (Some "Unknown signalling code"%string))
  = Ok ([xd0; x0b; xe5; xff] ++ list_byte_of_string "Unknown signalling code") /\
  _serialize (abort_msg None) = Ok [x00; xe5].
Proof. repeat split; reflexivity. Qed.

(** Proves [head_frame] for a concrete spool from the measured size. *)
Ltac head_frame_of off tkl l :=
  exists off, tkl, l; repeat split; try reflexivity; vm_compute; discriminate.

(** The frames of a CSM and a GET, delivered byte by byte to a fresh
    connection. *)
Lemma chunking_invariance_witness :
  deliver true (map (fun x => [x]) [x00; xe1; x00; x01]) init
  = (csm_seen, [DispatchIncoming get_msg], Ok tt).
Proof.
  apply (chunking_invariance true init x00 [xe1; x00; x01]); reflexivity.
Defined.

(** C3. Splitting the incoming bytes differently can change what is
    dispatched. The frames of a CSM, a signalling message of the unknown
    code 7.06 and a GET, on a fresh connection whose transport delivers
    nothing after it has been closed: delivered as one chunk, the abort for
    the unknown code is followed by the dispatch of the GET, since
    [_process_signaling] returns after [abort] and the loop goes on;
    delivered byte by byte, the transport is closed by the call that
    completes the second frame, and the GET never reaches the
    connection. *)
Theorem chunking_changes_dispatch :
  (deliver true [[x00; xe1; x00; xe6; x00; x01]] init).1.2
  = [TransportWrite
       ([xd0; x0b; xe5; xff] ++ list_byte_of_string "Unknown signalling code");
     TransportClose; DispatchIncoming get_msg] /\
  (deliver true (map (fun x => [x]) [x00; xe1; x00; xe6; x00; x01]) init).1.2
  = [TransportWrite
       ([xd0; x0b; xe5; xff] ++ list_byte_of_string "Unknown signalling code");
     TransportClose].
Proof. split; reflexivity. Qed.

(** C4 on the frame of a GET at the head of the spool, before and after a
    CSM has been processed. *)
Lemma capability_gating_witness :
  data_received_loop 1 (with_spool [x00; x01] init)
  = (init,
     [TransportWrite ([xd0; x03; xe5; xff] ++ list_byte_of_string "No CSM received");
      TransportClose],
     Ok Return) /\
  data_received_loop 2 (with_spool [x00; x01] csm_seen)
  = (csm_seen, [DispatchIncoming get_msg], Ok Break).
Proof.
  split.
  - apply (capability_gating 0 (with_spool [x00; x01] init) get_msg []);
      [head_frame_of 2 0 0|reflexivity|reflexivity|reflexivity].
  - assert (Hhead : head_frame (with_spool [x00; x01] csm_seen) get_msg [])
      by head_frame_of 2 0 0.
    destruct (capability_gating 1 _ _ _ Hhead eq_refl) as (_ & Hknown & _).
    apply Hknown. by exists ∅.
Defined.

(** C5. A fresh connection receives, in one chunk, an unknown signalling
    message, a CSM, a ping and a GET. The unknown code makes the connection
    call [abort]; after the abort frame and the close, the loop goes on with
    the rest of the spool: the CSM is processed, the ping is answered with a
    pong written to the closed transport, and the GET is dispatched. *)
Theorem abort_not_terminal :
  (data_received ([x00; xe6] ++ [x00; xe1] ++ [x01; xe2; x2a] ++ [x00; x01]) init).1.2
  = [TransportWrite
       ([xd0; x0b; xe5; xff] ++ list_byte_of_string "Unknown signalling code");
     TransportClose;
     TransportWrite [x01; xe3; x2a];
     DispatchIncoming get_msg].
Proof. reflexivity. Qed.

(** C7 on the frame of a ping with token [2a]. *)
Lemma ping_pong_witness :
  data_received_loop 2 (with_spool [x01; xe2; x2a] init)
  = (init, [TransportWrite [x01; xe3; x2a]], Ok Break).
Proof.
  apply (ping_pong 1 (with_spool [x01; xe2; x2a] init) ping_msg []);
    [head_frame_of 2 1 0|reflexivity|discriminate|constructor|reflexivity|reflexivity].
Defined.

(** C7, counterexample. A ping with token [2a] that carries the critical
    option number 1 (empty value): the option scan calls [abort] with the
    bad option, which raises [NameError]; no pong is written. *)
Lemma ping_critical_option_no_pong :
  _decode_message [x11; xe2; x2a; x10]
  = Ok {| code := PING; token := [x2a];
          opt := [{| number := 1; value := [] |}]; payload := [] |} /\
  data_received [x11; xe2; x2a; x10] init = (init, [], Raise NameError).
Proof. split; reflexivity. Qed.

(** C8 on a header that announces 1 MiB + 65805 bytes. *)
Lemma oversize_guard_witness :
  data_received_loop 1 (with_spool [xf0; x00; x10; x00; x00] init)
  = (with_spool [xf0; x00; x10; x00; x00] init,
     [TransportWrite [x00; xe5]; TransportClose], Ok Return).
Proof.
  destruct (oversize_guard (with_spool [xf0; x00; x10; x00; x00] init)
              6 0 (1048576 + 65805) eq_refl eq_refl) as (Hloop & _).
  apply (Hloop 0%nat).
Defined.

End Runs.

(** * Further properties of the codec *)

Lemma from_bytes_nonneg (d : list byte) : 0 <= from_bytes d.
Proof.
  induction d as [|x d IH] using rev_ind.
  - unfold from_bytes. simpl. lia.
  - rewrite from_bytes_snoc. pose proof (byte_val_range x). lia.
Qed.

(** A number read from [n] bytes is below [256 ^ n]. *)
Lemma from_bytes_bound (d : list byte) : from_bytes d < 256 ^ len d.
Proof.
  induction d as [|x d IH] using rev_ind; [reflexivity|].
  rewrite from_bytes_snoc, len_app. pose proof (byte_val_range x).
  pose proof (len_nonneg d).
  change (len [x]) with 1. rewrite Z.pow_add_r by lia.
  change (256 ^ 1) with 256.
  revert IH. generalize (256 ^ len d) (from_bytes d). intros P v IH. lia.
Qed.

(** X1. Length round trip beyond the thresholds: for every length below
    65535, and every length from 65805 up to the four-byte limit,
    [_encode_length] picks the nibble of the wire format and
    [_extract_message_size] reads the same length back from a header made
    of that nibble, any token length and the extension bytes, whatever
    follows the header. *)
Theorem encode_length_round_trip (n tkl : Z) (rest : list byte) :
  0 <= n < 65535 \/ 65805 <= n < 65805 + 2 ^ 32 ->
  0 <= tkl < 16 ->
  exists nib ext b0,
    _encode_length n = Ok (nib, ext) /\
    nib = (if n <? 13 then n else if n <? 269 then 13
           else if n <? 65805 then 14 else 15) /\
    mk_byte (Z.lor (Z.shiftl nib 4) tkl) = Some b0 /\
    _extract_message_size (b0 :: ext ++ rest) = Some (2 + len ext, tkl, n).
Proof. apply encode_length_inverse. Qed.

Lemma encode_length_round_trip_witness :
  exists nib ext b0,
    _encode_length 70000 = Ok (nib, ext) /\
    nib = (if 70000 <? 13 then 70000 else if 70000 <? 269 then 13
           else if 70000 <? 65805 then 14 else 15) /\
    mk_byte (Z.lor (Z.shiftl nib 4) 8) = Some b0 /\
    _extract_message_size (b0 :: ext ++ [xe5; xff]) = Some (2 + len ext, 8, 70000).
Proof. apply (encode_length_round_trip 70000 8 [xe5; xff]); lia. Defined.

(** X2. What [_extract_message_size] returns: with five bytes or more
    there always is a size; a size that is returned has a token offset of 2
    to 6 that lies within the buffer plus the code byte, a token length
    below 16 and a length from 0 to below 65805 + 2^32. *)
Theorem extract_message_size_shape (data : list byte) :
  (5 <= len data -> is_Some (_extract_message_size data)) /\
  (forall off tkl l,
     _extract_message_size data = Some (off, tkl, l) ->
     2 <= off <= 6 /\ off <= len data + 1 /\ 0 <= tkl < 16 /\
     0 <= l < 65805 + 2 ^ 32).
Proof.
  split.
  - destruct data as [|b0 rest]; [unfold len; simpl; lia|].
    intros Hlen. unfold _extract_message_size.
    destruct (13 <=? _); [|eauto].
    destruct (_ =? 13); [|destruct (_ =? 14)];
      (replace (len (b0 :: rest) <? _) with false by lia); eauto.
  - intros off tkl l Ex.
    pose proof (extract_message_size_bounds _ _ _ _ Ex) as (Hoff & Hin & Htkl & Hl).
    do 4 (split; [lia|]).
    destruct data as [|b0 rest]; [discriminate|].
    unfold _extract_message_size in Ex.
    pose proof (byte_val_range b0) as Hb.
    assert (Hnib : Z.shiftr (byte_val b0) 4 < 16).
    { rewrite Z.shiftr_div_pow2 by lia. apply Z.div_lt_upper_bound; lia. }
    assert (Hfb : forall k, 0 <= k <= 4 ->
              from_bytes (slice (b0 :: rest) 1 (1 + k)) < 2 ^ 32).
    { intros k Hk.
      pose proof (from_bytes_bound (slice (b0 :: rest) 1 (1 + k))) as Hlt.
      pose proof (len_slice_le (b0 :: rest) 1 (1 + k)) as Hle.
      pose proof (len_nonneg (slice (b0 :: rest) 1 (1 + k))) as Hge.
      eapply Z.lt_le_trans; [exact Hlt|].
      change (2 ^ 32) with (256 ^ 4). apply Z.pow_le_mono_r; lia. }
    destruct (13 <=? _) eqn:H13.
    + destruct (_ =? 13) eqn:E13; [|destruct (_ =? 14) eqn:E14];
        (destruct (len (b0 :: rest) <? _); [discriminate|]);
        injection Ex as <- <- <-;
        match goal with
        | |- context [slice _ 1 (1 + ?k)] => pose proof (Hfb k ltac:(lia))
        end; lia.
    + injection Ex as <- <- <-. lia.
Qed.

Section CodecMore.
Context `{Collaborators}.


(** X4. What a frame returned by [_serialize] says of its message: the
    token has at most 8 bytes, the code is in [range(256)], and the joined
    options and payload have fewer than 65535 bytes, or 65805 bytes up to
    the four-byte limit. *)
Theorem serialize_Ok_only_if (msg : Message) (data : list byte) :
  _serialize msg = Ok data ->
  len (token msg) <= 8 /\ 0 <= code msg < 256 /\
  (len (body_of msg) < 65535 \/ 65805 <= len (body_of msg) < 65805 + 2 ^ 32).
Proof. apply serialize_Ok_inv. Qed.

End CodecMore.


(** ** Further runs on the CoAP-over-TCP collaborators *)

Section MoreRuns.
#[local] Existing Instance coap_tcp.

(** X5 on a frame that declares a token of 9 bytes. *)
Lemma overlong_token_rejected_witness :
  data_received_loop 1 (with_spool (x09 :: x01 :: replicate 9 x00) init)
  = (with_spool (x09 :: x01 :: replicate 9 x00) init,
     [LogWarning "Received unparsable stream, aborting";
      TransportWrite
        ([xd0; x0b; xe5; xff] ++ list_byte_of_string "Failed to parse message");
      TransportClose],
     Ok Return).
Proof.
  etrans;
    [apply (overlong_token_rejected 0
              (with_spool (x09 :: x01 :: replicate 9 x00) init) 2 9 0);
     [reflexivity|lia|vm_compute; discriminate|vm_compute; discriminate]
    |reflexivity].
Defined.

(** X4 on a GET with a two-byte token, one option and a payload. *)
Lemma serialize_Ok_only_if_witness :
  let msg := {| code := 1; token := [x2a; x2b];
                opt := [{| number := 11; value := [x61; x62] |}];
                payload := [x01] |} in
  len (token msg) <= 8 /\ 0 <= code msg < 256 /\
  (len (body_of msg) < 65535 \/ 65805 <= len (body_of msg) < 65805 + 2 ^ 32).
Proof.
  apply (serialize_Ok_only_if _
           [x52; x01; x2a; x2b; xb2; x61; x62; xff; x01]).
  vm_compute. reflexivity.
Defined.

(** X6 on the frame of a ping with token [2a], followed by a further
    byte. *)
Lemma decode_message_on_cut_frame_witness :
  let spool := [x01; xe2; x2a; x00] in
  let frame := take (Z.to_nat (2 + 1 + 0)) spool in
  _extract_message_size frame = Some (2, 1, 0) /\
  (8 < 1 -> _decode_message frame = Raise UnparsableMessage) /\
  exists c,
    index frame (2 - 1) = Some c /\
    len (slice frame 2 (2 + 1)) = 1 /\
    drop (Z.to_nat (2 + 1)) frame = slice spool (2 + 1) (2 + 1 + 0) /\
    forall opts pl,
      1 <= 8 ->
      opt_decode (slice spool (2 + 1) (2 + 1 + 0)) = Some (opts, pl) ->
      _decode_message frame =
      Ok {| code := byte_val c; token := slice frame 2 (2 + 1);
            opt := opts; payload := pl |}.
Proof.
  apply (decode_message_on_cut_frame [x01; xe2; x2a; x00] 2 1 0);
    [reflexivity|vm_compute; discriminate].
Defined.

(** X7 on a spool that holds the frames of a CSM and a GET. *)
Lemma data_received_loop_ends_witness :
  (forall c0 c1 calls,
     data_received_body c0 = (c1, calls, Ok Continue) ->
     len (_spool c1) + 2 <= len (_spool c0)) /\
  (data_received_loop 5 (with_spool [x00; xe1; x00; x01] init)).2 <> Ok Continue /\
  data_received_loop 9 (with_spool [x00; xe1; x00; x01] init)
  = data_received_loop 5 (with_spool [x00; xe1; x00; x01] init).
Proof.
  apply (data_received_loop_ends 5 9 (with_spool [x00; xe1; x00; x01] init));
    cbn; lia.
Defined.

(** X10 on a GET delivered to a fresh connection. *)
Lemma no_dispatch_before_csm_witness :
  dispatched (data_received [x00; x01] init).1.2 = [].
Proof. apply (no_dispatch_before_csm [x00; x01] init). reflexivity. Defined.

(** X11 on a CSM with a maximum message size of 1024, the block-wise
    marker and the elective option 6. *)
Lemma csm_settings_applied_witness :
  _process_signaling
    {| code := 225; token := [];
       opt := [ {| number := 2; value := [x04; x00] |};
                {| number := 4; value := [] |};
                {| number := 6; value := [x01] |} ];
       payload := [] |} init
  = ({| _spool := []; _my_max_message_size := 1024 * 1024;
        _remote_settings :=
          Some (<["block-wise-transfer" := STrue]>
                  (<["max-message-size" := SInt 1024]> ∅)) |}, [], Ok tt).
Proof.
  apply (csm_settings_applied
           {| code := 225; token := [];
              opt := [ {| number := 2; value := [x04; x00] |};
                       {| number := 4; value := [] |};
                       {| number := 6; value := [x01] |} ];
              payload := [] |} init); [reflexivity|].
  repeat apply Forall_cons_2; [by left|right; by left|right; by right|constructor].
Defined.

(** X12 on a connection that knows the block-wise marker and receives an
    empty CSM. *)
Lemma remote_setting_kept_witness :
  has_setting "block-wise-transfer"
    (data_received [x00; xe1]
       {| _spool := []; _my_max_message_size := 1024 * 1024;
          _remote_settings := Some {["block-wise-transfer" := STrue]} |}).1.1.
Proof.
  apply (remote_setting_kept "block-wise-transfer" [x00; xe1]).
  unfold has_setting. cbn [_remote_settings]. rewrite lookup_singleton_eq. eauto.
Defined.

(** X13 on the abort that the pools' [shutdown] sends. *)
Lemma abort_sends_and_closes_witness :
  exists frame off,
    abort (Some "Server shutdown"%string) None init
    = (init, [TransportWrite frame; TransportClose], Ok tt) /\
    _extract_message_size frame
    = Some (off, 0, len (body_of (abort_msg (Some "Server shutdown"%string)))) /\
    len frame = off + len (body_of (abort_msg (Some "Server shutdown"%string))) /\
    _decode_message frame =
      match opt_decode (body_of (abort_msg (Some "Server shutdown"%string))) with
      | Some (opts, pl) =>
        Ok {| code := ABORT; token := []; opt := opts; payload := pl |}
      | None => Raise UnparsableMessage
      end.
Proof.
  apply (abort_sends_and_closes (Some "Server shutdown"%string) init);
    [cbn; lia|reflexivity].
Defined.

(** X14 on the frames of a CSM and a GET, cut in the middle of the GET. *)
Lemma any_chunking_witness :
  deliver true [[x00; xe1; x00]; [x01]] init
  = (csm_seen, [DispatchIncoming get_msg], Ok tt).
Proof.
  apply (any_chunking true [[x01]] [x00; xe1; x00] init); reflexivity.
Defined.

(** X15 on a GET with a token, an option and a payload. *)
Lemma received_as_sent_witness :
  data_received [x41; x01; x2a; xb1; x61; xff; x01] csm_seen
  = (csm_seen,
     [DispatchIncoming
        {| code := 1; token := [x2a];
           opt := [{| number := 11; value := [x61] |}]; payload := [x01] |}],
     Ok tt).
Proof.
  apply (received_as_sent
           {| code := 1; token := [x2a];
              opt := [{| number := 11; value := [x61] |}]; payload := [x01] |});
    [reflexivity|reflexivity|reflexivity|reflexivity|by exists ∅
    |vm_compute; discriminate].
Defined.

(** X16 on two fresh connections. *)
Lemma initial_csm_understood_witness :
  data_received [x50; xe1; x23; x10; x00; x00; x20] init
  = ({| _spool := []; _my_max_message_size := 1024 * 1024;
        _remote_settings :=
          Some (<["block-wise-transfer" := STrue]>
                  (<["max-message-size" := SInt (1024 * 1024)]> ∅)) |},
     [], Ok tt).
Proof.
  apply (initial_csm_understood uint_bytes init init);
    [reflexivity|reflexivity|reflexivity|reflexivity|reflexivity
    |vm_compute; discriminate].
Defined.

(** X20 on a pool with one other connection. *)
Lemma client_evict_inserted_witness :
  client_evict_from_pool
    (<[(Some "b.example"%string, 5683) := 7%nat]>
       {[(Some "a.example"%string, 5683) := 3%nat]}) 7%nat
  = {[(Some "a.example"%string, 5683) := 3%nat]}.
Proof.
  apply (client_evict_inserted
           {[(Some "a.example"%string, 5683) := 3%nat]}
           (Some "b.example"%string, 5683) 7%nat).
  - apply lookup_singleton_ne. discriminate.
  - intros k Hk. apply lookup_singleton_Some in Hk as [_ Hk]. discriminate.
Defined.

End MoreRuns.
